(** * Query Pulse: the query-state engine, embedded and verified

    Sources embedded here:
    - [src/lib/types]            : [QueryStatus], [QueryState], [QueryStore]
    - [src/lib/plugins/CachePlugin.ts] : the [CachePlugin] interface
    - the [InMemoryCache] plugin : a [Map<string, unknown>]
    - [src/lib/QueryProvider.tsx] (the provider taking a [cache] prop) :
      [queryStore], [queryStoreRef], [setQueryStore], [fetchData]
    - [useQuery]                 : the hook reading one key
    - the plugin loader          : [cachePlugins], [createCachePlugin]

    The store, the ref and the plugin registry are plain objects used as
    maps: a read [obj[key]] also finds what [Object.prototype] holds, which
    [get_property] embeds.

    JavaScript objects are references.  A store snapshot is an object whose
    own keys hold references to record objects; [fetchData] copies the
    snapshot ([{ ...prevStore }]) but shares the record objects, and one of
    its paths assigns to a field of a shared record.  The embedding therefore
    keeps record objects in a heap and store snapshots as finite maps from
    keys to heap locations. *)

From stdpp Require Import gmap strings list fin_maps.

Open Scope string_scope.
Open Scope list_scope.

(** ** Values *)

(** The values the engine passes around as [unknown]. [JError msg] is an
    [Error] object carrying [msg]; [JObj n] is any other object, by identity. *)
Inductive jsval :=
| JUndefined
| JNull
| JBool (b : bool)
| JNum (n : Z)
| JStr (s : string)
| JError (msg : string)
| JObj (n : nat).

Global Instance jsval_eq_dec : EqDecision jsval.
Proof. solve_decision. Defined.

(** A statement either completes normally or throws. *)
Inductive completion (A : Type) :=
| Normal (a : A)
| Throw (e : jsval).
Arguments Normal {A} a.
Arguments Throw {A} e.

Definition try_catch {A} (body : completion A) (handler : jsval → completion A)
  : completion A :=
  match body with
  | Normal a => Normal a
  | Throw e => handler e
  end.

Definition cbind {A B} (m : completion A) (k : A → completion B) : completion B :=
  match m with
  | Normal a => k a
  | Throw e => Throw e
  end.

Notation "'do' x <- m ; k" := (cbind m (fun x => k))
  (at level 10, x name, m at level 100, k at level 200).

(** ** The cache plugin contract *)

(** [CachePlugin.ts]: [get], [set], [delete] over the plugin's own state [C].
    [get] answers [undefined] ([JUndefined]) for a key it does not hold. The
    three operations are taken to return normally. *)
Class CachePlugin (C : Type) := {
  cache_get : C → string → jsval;
  cache_set : C → string → jsval → C;
  cache_delete : C → string → C;
}.

(** The in-memory plugin: [private store = new Map<string, unknown>()]. *)
Module InMemoryCache.

Record t := { store : gmap string jsval }.

Definition new : t := {| store := ∅ |}.

(** [return this.store.get(key)] *)
Definition get (c : t) (key : string) : jsval :=
  default JUndefined (store c !! key).

(** [this.store.set(key, value)] *)
Definition set (c : t) (key : string) (value : jsval) : t :=
  {| store := <[key := value]> (store c) |}.

(** [this.store.delete(key)] *)
Definition delete (c : t) (key : string) : t :=
  {| store := base.delete key (store c) |}.

End InMemoryCache.

Global Instance InMemoryCache_plugin : CachePlugin InMemoryCache.t := {
  cache_get := InMemoryCache.get;
  cache_set := InMemoryCache.set;
  cache_delete := InMemoryCache.delete;
}.

(** ** The query state model *)

Inductive QueryStatus := Idle | Loading | Success | Error.

Global Instance QueryStatus_eq_dec : EqDecision QueryStatus.
Proof. solve_decision. Defined.

(** A [fetchFn] closure, by identity; what a call to it yields is decided by
    the environment when the call settles. *)
Abbreviation producer := nat (only parsing).

(** [QueryState]: [data?] and [error?] are optional fields ([None] when the
    object literal does not list them); [refetch] is the closure
    [() => fetchData(key, fetchFn)], kept as the pair it captures. *)
Record QueryState := {
  status : QueryStatus;
  data : option jsval;
  error : option jsval;
  isFetching : bool;
  refetch : string * producer;
}.

Global Instance QueryState_eq_dec : EqDecision QueryState.
Proof. solve_decision. Defined.

(** What [await fetchFn()] yields: the promise resolves with [{ data }] or
    rejects with an arbitrary value. *)
Inductive outcome :=
| Resolved (v : jsval)
| Rejected (e : jsval).

Definition await (o : outcome) : completion jsval :=
  match o with
  | Resolved v => Normal v
  | Rejected e => Throw e
  end.

(** The object literals [fetchData] and [useQuery] build. *)
Definition loading_record (key : string) (fetchFn : producer) : QueryState :=
  {| status := Loading; data := None; error := None;
     isFetching := true; refetch := (key, fetchFn) |}.

Definition success_record (key : string) (fetchFn : producer) (d : jsval) : QueryState :=
  {| status := Success; data := Some d; error := None;
     isFetching := false; refetch := (key, fetchFn) |}.

Definition error_record (key : string) (fetchFn : producer) (e : jsval) : QueryState :=
  {| status := Error; data := None; error := Some e;
     isFetching := false; refetch := (key, fetchFn) |}.

Definition defaultState (key : string) (fetchFn : producer) : QueryState :=
  {| status := Idle; data := None; error := None;
     isFetching := false; refetch := (key, fetchFn) |}.

(** [record.isFetching = true], an assignment to one field of the object. *)
Definition set_isFetching (r : QueryState) : QueryState :=
  {| status := status r; data := data r; error := error r;
     isFetching := true; refetch := refetch r |}.

(** ** Record objects and store snapshots *)

(** The heap of record objects: a location is an index, a new object is
    appended, so no location is ever reused. A store snapshot ([QueryStore])
    maps keys to locations. *)
Abbreviation objects := (list QueryState) (only parsing).
Abbreviation snapshot := (gmap string nat) (only parsing).

(** ** Plain objects read as maps *)

(** The store, the ref and the plugin registry are plain objects ([{}]) read
    with [obj[key]]. Such a read answers the object's own property when it
    has one and otherwise what [Object.prototype] holds under that name.
    These are the names the language defines there; every one of them holds
    a function, except [__proto__], which answers [Object.prototype] itself:
    all are truthy. [Object.prototype] is taken as the language defines it,
    and as the prototype of each of these objects: this is so as long as no
    property is assigned under ["__proto__"], which the statements on runs
    exclude by asking that every key be [ordinary]. *)
Definition Object_prototype_names : list string :=
  ["constructor"; "__defineGetter__"; "__defineSetter__"; "hasOwnProperty";
   "__lookupGetter__"; "__lookupSetter__"; "isPrototypeOf";
   "propertyIsEnumerable"; "toString"; "valueOf"; "__proto__";
   "toLocaleString"].

(** A key that names nothing in [Object.prototype]: for such a key, and for
    it only, a plain object behaves as the finite map of its own
    properties. *)
Definition ordinary (key : string) : Prop := key ∉ Object_prototype_names.

Global Instance ordinary_dec key : Decision (ordinary key).
Proof. unfold ordinary. apply _. Defined.

(** What [obj[key]] answers: an own property, an inherited member, or
    [undefined]. *)
Inductive property (A : Type) :=
| Own (a : A)
| Inherited (member : string)
| Absent.
Arguments Own {A} a.
Arguments Inherited {A} member.
Arguments Absent {A}.

(** [obj[key]] for a plain object with own properties [m], whose prototype
    is [Object.prototype] as the language defines it. *)
Definition get_property {A} (m : gmap string A) (key : string) : property A :=
  match m !! key with
  | Some a => Own a
  | None => if decide (ordinary key) then Absent else Inherited key
  end.

(** [{ ...prevStore, [key]: r }] with [r] a new object literal. *)
Definition put_record (key : string) (r : QueryState)
    (hs : objects * snapshot) : objects * snapshot :=
  (hs.1 ++ [r], <[key := length hs.1]> hs.2).

(** [o.isFetching = true] on the record object at location [l]: the object
    changes, the snapshot that refers to it does not. *)
Definition assign_isFetching (l : nat) (hs : objects * snapshot) : objects * snapshot :=
  (alter set_isFetching l hs.1, hs.2).

(** The updater of the loading step:
    [newStore = { ...prevStore };
     if (!newStore[key]) newStore[key] = { status: "loading", isFetching: true, refetch }
     else newStore[key].isFetching = true;]
    The copy shares its record objects with [prevStore], so the [else]
    branch writes to the object [prevStore] also refers to. The test
    [!newStore[key]] is taken on the own properties, which is what the code
    does for a key that is [ordinary]; for a name of [Object.prototype]
    that has no own property the code finds the inherited member and
    assigns its [isFetching], which touches no record object. *)
Definition mark_fetching (key : string) (fetchFn : producer)
    (hs : objects * snapshot) : objects * snapshot :=
  match hs.2 !! key with
  | None => put_record key (loading_record key fetchFn) hs
  | Some l => assign_isFetching l hs
  end.

(** What [useQuery] hands back: a query state, or a member inherited from
    [Object.prototype] (a function, or [Object.prototype] itself), which has
    none of the fields of a query state. *)
Inductive returned :=
| Returned (queryState : QueryState)
| ReturnedMember (member : string).

(** ** The provider *)

Section Engine.
Context {C : Type} `{!CachePlugin C}.

(** The state of one mounted [QueryProvider]:
    - [heap]: the record objects;
    - [queryStore]: the React state, by its own properties;
    - [queryStoreRef]: [queryStoreRef.current], by its own properties, which
      the effect
      [useEffect(() => { queryStoreRef.current = queryStore }, [queryStore])]
      assigns after a render has committed;
    - [cache]: the optional [cache] prop and the plugin's state;
    - [pending]: the [fetchData] calls suspended at [await fetchFn()];
    - [calls]: every [fetchFn()] call made so far, in order. *)
Record engine := {
  heap : list QueryState;
  queryStore : gmap string nat;
  queryStoreRef : gmap string nat;
  cache : option C;
  pending : list (string * producer);
  calls : list (string * producer);
}.

(** [useState<QueryStore>({})], [useRef(queryStore)]. *)
Definition mount (cache : option C) : engine :=
  {| heap := []; queryStore := ∅; queryStoreRef := ∅; cache := cache;
     pending := []; calls := [] |}.

(** [setQueryStore(updater)]: React runs the updaters in the order of the
    calls, each on the store the previous one returned, by the next render
    at the latest; here each runs at its call, so [queryStore] is the store
    the next render shows, and statements about what has been rendered are
    made on [commit] states. What [fetchData] reads is the ref, which no
    updater assigns. *)
Definition setQueryStore
    (updater : objects * snapshot → objects * snapshot) (s : engine) : engine :=
  let hs := updater (heap s, queryStore s) in
  {| heap := hs.1; queryStore := hs.2; queryStoreRef := queryStoreRef s;
     cache := cache s; pending := pending s; calls := calls s |}.

(** The record a key has in the store, and in the ref. *)
Definition lookup_record (s : engine) (key : string) : option QueryState :=
  queryStore s !! key ≫= λ l, heap s !! l.

Definition ref_record (s : engine) (key : string) : option QueryState :=
  queryStoreRef s !! key ≫= λ l, heap s !! l.

(** [queryStoreRef.current[key]?.isFetching], the guard of [fetchData], on
    the own properties of the ref: for a key that is [ordinary] this is the
    code's read. *)
Definition ref_isFetching (s : engine) (key : string) : bool :=
  match ref_record s key with
  | Some r => isFetching r
  | None => false
  end.

(** The cache-read step of [fetchData]:
    [if (cache && !queryStoreRef.current[key]) {
       const cachedData = cache.get(key);
       if (cachedData !== undefined) setQueryStore(prev => ({ ...prev, [key]: success })) }] *)
Definition cache_read (key : string) (fetchFn : producer) (s : engine) : engine :=
  match cache s, get_property (queryStoreRef s) key with
  | Some c, Absent =>
      let cachedData := cache_get c key in
      if decide (cachedData = JUndefined) then s
      else setQueryStore (put_record key (success_record key fetchFn cachedData)) s
  | _, _ => s
  end.

(** [fetchFn()] is called and [fetchData] suspends at the [await]. *)
Definition call_fetchFn (key : string) (fetchFn : producer) (s : engine) : engine :=
  {| heap := heap s; queryStore := queryStore s; queryStoreRef := queryStoreRef s;
     cache := cache s;
     pending := pending s ++ [(key, fetchFn)];
     calls := calls s ++ [(key, fetchFn)] |}.

(** [fetchData(key, fetchFn)] up to its [await]. *)
Definition fetchData (key : string) (fetchFn : producer) (s : engine) : engine :=
  if ref_isFetching s key then s
  else
    let s1 := cache_read key fetchFn s in
    let s2 := setQueryStore (mark_fetching key fetchFn) s1 in
    call_fetchFn key fetchFn s2.

(** [if (cache) cache.set(key, data)] *)
Definition cache_write (key : string) (d : jsval) (s : engine) : engine :=
  {| heap := heap s; queryStore := queryStore s; queryStoreRef := queryStoreRef s;
     cache := (λ c, cache_set c key d) <$> cache s;
     pending := pending s; calls := calls s |}.

(** The rest of [fetchData], from the [await] on:
    [try { const { data } = await fetchFn(); if (cache) cache.set(key, data);
           setQueryStore(success) }
     catch (error) { setQueryStore(error) }] *)
Definition fetchData_resume (key : string) (fetchFn : producer)
    (o : outcome) (s : engine) : completion engine :=
  try_catch
    (do d <- await o;
     Normal (setQueryStore (put_record key (success_record key fetchFn d))
               (cache_write key d s)))
    (λ e, Normal (setQueryStore (put_record key (error_record key fetchFn e)) s)).

(** The suspended call at position [n] leaves [pending]. *)
Definition take_pending (n : nat) (s : engine) : engine :=
  {| heap := heap s; queryStore := queryStore s; queryStoreRef := queryStoreRef s;
     cache := cache s; pending := base.delete n (pending s); calls := calls s |}.

(** A render commits and the effect assigns the rendered store to the ref. *)
Definition commit (s : engine) : engine :=
  {| heap := heap s; queryStore := queryStore s; queryStoreRef := queryStore s;
     cache := cache s; pending := pending s; calls := calls s |}.

(** What can happen to a mounted provider: a call of [fetchData], a
    committed render, the settling of the suspended call at position [n]. *)
Inductive event :=
| Invoke (key : string) (fetchFn : producer)
| Commit
| Settle (n : nat) (o : outcome).

Definition step (s : engine) (ev : event) : engine :=
  match ev with
  | Invoke key fetchFn => fetchData key fetchFn s
  | Commit => commit s
  | Settle n o =>
      match pending s !! n with
      | None => s
      | Some (key, fetchFn) =>
          match fetchData_resume key fetchFn o (take_pending n s) with
          | Normal s' => s'
          | Throw _ => take_pending n s
          end
      end
  end.

Definition run (s : engine) (evs : list event) : engine := foldl step s evs.

(** The number of [fetchFn()] calls outstanding for a key. *)
Definition outstanding (s : engine) (key : string) : nat :=
  length (filter (λ p, p.1 = key) (pending s)).

(** ** The hook *)

(** [useQuery(key, fetchFn)] during a render: [context] is what
    [useContext(QueryContext)] gives, [undefined] ([None]) outside a
    provider. [currentQuery] is [queryStore[key]]: the record of the key, or,
    when the store has none and [key] names a member of [Object.prototype],
    that member. The result is [currentQuery || defaultState] and whether
    the effect registered by the hook will call [fetchData(key, fetchFn)]:
    an inherited member is truthy and has no [status], so the hook returns
    it and the effect does nothing. *)
Definition useQuery (context : option engine) (key : string) (fetchFn : producer)
  : completion (returned * bool) :=
  match context with
  | None => Throw (JError "useQuery must be used within a QueryProvider")
  | Some s =>
      match lookup_record s key, get_property (queryStore s) key with
      | Some q, _ =>
          Normal (Returned q,
                  bool_decide (status q = Idle)
                  || (bool_decide (status q = Loading) && negb (isFetching q)))
      | None, Inherited member => Normal (ReturnedMember member, false)
      | None, _ => Normal (Returned (defaultState key fetchFn), true)
      end
  end.

(** ** Predicates on reachable states *)

(** A record object as one of the three literals of [fetchData] leaves it:
    which of [data] and [error] it lists follows from its status. *)
Definition well_shaped (r : QueryState) : Prop :=
  match status r with
  | Idle => False
  | Loading => data r = None ∧ error r = None
  | Success => is_Some (data r) ∧ error r = None
  | Error => data r = None ∧ is_Some (error r)
  end.

(** [key] has no record and no suspended call. *)
Definition untouched (key : string) (s : engine) : Prop :=
  queryStore s !! key = None
  ∧ queryStoreRef s !! key = None
  ∧ ∀ fetchFn, (key, fetchFn) ∉ pending s.

(** The store and the ref refer to existing record objects, and no two keys
    of the store share one. *)
Definition valid (s : engine) : Prop :=
  (∀ k l, queryStore s !! k = Some l → l < length (heap s))
  ∧ (∀ k l, queryStoreRef s !! k = Some l → l < length (heap s))
  ∧ (∀ k1 k2 l, queryStore s !! k1 = Some l → queryStore s !! k2 = Some l → k1 = k2).

(** [ev] is not a call of [fetchData] for [key]. *)
Definition not_invoke (key : string) (ev : event) : Prop :=
  match ev with
  | Invoke k _ => k ≠ key
  | _ => True
  end.

(** [ev] is not a call of [fetchData] for a name of [Object.prototype]. *)
Definition ordinary_event (ev : event) : Prop :=
  match ev with
  | Invoke k _ => ordinary k
  | _ => True
  end.

End Engine.

Arguments engine C : clear implicits.

(** ** Sample providers *)

(** A provider without a cache whose key ["users"] went through one fetch
    that resolved, every render committed. *)
Definition users_loaded : engine InMemoryCache.t :=
  run (mount None)
    [Invoke "users" 1; Commit; Settle 0 (Resolved (JStr "alice")); Commit].

(** A cache that already holds a value for ["users"]. *)
Definition users_cached : InMemoryCache.t :=
  InMemoryCache.set InMemoryCache.new "users" (JStr "cached").

(** A cache that holds a value under a name of [Object.prototype]. *)
Definition constructor_cached : InMemoryCache.t :=
  InMemoryCache.set InMemoryCache.new "constructor" (JStr "cached").

(** A provider with an empty cache and one call suspended. *)
Definition users_in_flight : engine InMemoryCache.t :=
  run (mount (Some InMemoryCache.new)) [Invoke "users" 1; Commit].

(** ** The provider without a [cache] prop *)

Section Cacheless.
Context {C : Type} `{!CachePlugin C}.

(** [fetchData] of the provider that takes only [children], up to its
    [await]: the guard on the ref, the loading updater, the call. *)
Definition fetchData_plain (key : string) (fetchFn : producer) (s : engine C)
  : engine C :=
  if ref_isFetching s key then s
  else call_fetchFn key fetchFn (setQueryStore (mark_fetching key fetchFn) s).

(** The rest of it:
    [try { const { data } = await fetchFn(); setQueryStore(success) }
     catch (error) { setQueryStore(error) }] *)
Definition fetchData_plain_resume (key : string) (fetchFn : producer)
    (o : outcome) (s : engine C) : completion (engine C) :=
  try_catch
    (do d <- await o;
     Normal (setQueryStore (put_record key (success_record key fetchFn d)) s))
    (λ e, Normal (setQueryStore (put_record key (error_record key fetchFn e)) s)).

End Cacheless.

(** ** Renders and effects *)

Section Rendering.
Context {C : Type} `{!CachePlugin C}.

(** The effect [useQuery] registers:
    [if (!currentQuery || currentQuery.status === "idle" ||
         (currentQuery.status === "loading" && !currentQuery.isFetching))
       fetchData(key, fetchFn)].
    [currentQuery] is what the render that registered the effect read at
    [queryStore[key]] and the closure kept: a record object by reference (its
    fields are read when the effect runs), an inherited member, or
    [undefined]. [s] is the provider when the effect runs. *)
Definition useQuery_effect (currentQuery : property nat)
    (key : string) (fetchFn : producer) (s : engine C) : engine C :=
  let fires :=
    match currentQuery with
    | Absent => true
    | Inherited _ => false
    | Own l =>
        match heap s !! l with
        | Some q =>
            bool_decide (status q = Idle)
            || (bool_decide (status q = Loading) && negb (isFetching q))
        | None => false
        end
    end in
  if fires then fetchData key fetchFn s else s.

(** An event, followed by a committed render when it is a call of
    [fetchData]. *)
Definition step_rendered (s : engine C) (ev : event) : engine C :=
  match ev with
  | Invoke _ _ => commit (step s ev)
  | _ => step s ev
  end.

Definition run_rendered (s : engine C) (evs : list event) : engine C :=
  foldl step_rendered s evs.

(** Every key the ref holds, the store holds. *)
Definition ref_within_store (s : engine C) : Prop :=
  ∀ k, is_Some (queryStoreRef s !! k) → is_Some (queryStore s !! k).

(** What the refetch handles and the suspended calls hold was passed to a
    [fetchFn()] call: a stored record's [refetch] is bound to its own key. *)
Definition handles_bound (s : engine C) : Prop :=
  (∀ k r, lookup_record s k = Some r → (refetch r).1 = k ∧ refetch r ∈ calls s)
  ∧ (∀ p, p ∈ pending s → p ∈ calls s).

(** At most one call is outstanding for each key, and the store marks a key
    with an outstanding call as fetching. *)
Definition fetching_in_store (s : engine C) : Prop :=
  ∀ key, (outstanding s key ≤ 1)%nat
         ∧ (outstanding s key = 1 →
            ∃ r, lookup_record s key = Some r ∧ isFetching r = true).

(** The same, and the ref shows it too. *)
Definition one_in_flight (s : engine C) : Prop :=
  fetching_in_store s
  ∧ ∀ key, outstanding s key = 1 → ref_isFetching s key = true.

End Rendering.

(** The calls of [fetchData] among the events. *)
Fixpoint invoke_count (evs : list event) : nat :=
  match evs with
  | [] => 0
  | Invoke _ _ :: evs => S (invoke_count evs)
  | _ :: evs => invoke_count evs
  end.

(** [ev] is a call of [fetchData] for [key] or a committed render. *)
Definition invoke_or_commit (key : string) (ev : event) : Prop :=
  match ev with
  | Invoke k _ => k = key
  | Commit => True
  | Settle _ _ => False
  end.

(** ** The plugin loader *)

Module CachePluginLoader.
Section Loader.
Context {I : Type}.

(** A plugin class: its [name] and what [new Plugin()] builds. *)
Record CachePluginConstructor := {
  name : string;
  construct : I;
}.

(** [s.endsWith(search)] *)
Definition endsWith (s search : string) : bool :=
  let n := String.length s in
  let m := String.length search in
  if decide ((m ≤ n)%nat) then bool_decide (String.substring (n - m) m s = search) else false.

(** The body of [for (const path in modules)]: a module is a path and its
    [default] export, [None] when it has none. The assignment defines an own
    property for every class name but ["__proto__"]. *)
Definition register (cachePlugins : gmap string CachePluginConstructor)
    (entry : string * option CachePluginConstructor)
  : gmap string CachePluginConstructor :=
  if endsWith entry.1 "index.ts" then cachePlugins
  else match entry.2 with
       | Some Plugin => <[name Plugin := Plugin]> cachePlugins
       | None => cachePlugins
       end.

(** The registry once the loop has run over [modules], in iteration order. *)
Definition cachePlugins (modules : list (string * option CachePluginConstructor))
  : gmap string CachePluginConstructor :=
  foldl register ∅ modules.

(** What [new Plugin()] gives when [Plugin] is what the registry answers: an
    instance of a registered class, or, for [Object], an empty object. *)
Inductive created :=
| Instance (plugin : I)
| EmptyObject.

(** The [TypeError] of [new] applied to something that cannot construct. *)
Definition not_a_constructor : jsval := JError "Plugin is not a constructor".

(** [createCachePlugin(name)]:
    [const Plugin = cachePlugins[name]; return Plugin ? new Plugin() : undefined].
    The registry is a plain object: under a name it does not hold itself it
    answers the member [Object.prototype] has. [constructor] is [Object],
    and [new Object()] is an empty object; the other members are truthy and
    cannot construct. *)
Definition createCachePlugin (modules : list (string * option CachePluginConstructor))
    (pluginName : string) : completion (option created) :=
  match get_property (cachePlugins modules) pluginName with
  | Own Plugin => Normal (Some (Instance (construct Plugin)))
  | Inherited member =>
      if decide (member = "constructor") then Normal (Some EmptyObject)
      else Throw not_a_constructor
  | Absent => Normal None
  end.

(** The default exports the loop registers, in iteration order. *)
Definition registrable (modules : list (string * option CachePluginConstructor))
  : list CachePluginConstructor :=
  omap (λ entry, if endsWith entry.1 "index.ts" then None else entry.2) modules.

End Loader.
Arguments CachePluginConstructor I : clear implicits.
End CachePluginLoader.

(** ** Sample modules *)

(** The plugin directory as the loader sees it: its own [index.ts], and a
    module that exports its class by name only. *)
Definition plugin_directory
  : list (string * option (CachePluginLoader.CachePluginConstructor InMemoryCache.t)) :=
  [("./index.ts",
    Some {| CachePluginLoader.name := "Loader";
            CachePluginLoader.construct := InMemoryCache.new |});
   ("./InMemoryCache.ts", None)].

(** A directory with a module that exports a class by default. *)
Definition plugin_directory_with_default
  : list (string * option (CachePluginLoader.CachePluginConstructor InMemoryCache.t)) :=
  [("./index.ts",
    Some {| CachePluginLoader.name := "Loader";
            CachePluginLoader.construct := InMemoryCache.new |});
   ("./RedisCache.ts",
    Some {| CachePluginLoader.name := "RedisCache";
            CachePluginLoader.construct := users_cached |})].

(** * Properties *)

(** A closed decidable statement, settled by evaluating its decision. *)
Ltac by_decision := refine (bool_decide_unpack _ _); vm_compute; exact I.

(** Every event of a closed run is for a key that names nothing in
    [Object.prototype]. *)
Ltac ordinary_events :=
  repeat match goal with
         | |- Forall _ [] => constructor
         | |- Forall _ (_ :: _) =>
             constructor; [ first [ exact I | cbn; by_decision ] | ]
         end.

(** ** The in-memory plugin *)

(** C10. For the in-memory plugin: reading a key after [set] gives the value
    set, reading it after [delete] gives [undefined], and neither [set] nor
    [delete] on one key changes what [get] answers for a different key. *)
Theorem InMemoryCache_get_set_delete :
  ∀ (c : InMemoryCache.t) (k k' : string) (v : jsval),
    InMemoryCache.get (InMemoryCache.set c k v) k = v
    ∧ InMemoryCache.get (InMemoryCache.delete c k) k = JUndefined
    ∧ (k' ≠ k →
       InMemoryCache.get (InMemoryCache.set c k v) k' = InMemoryCache.get c k'
       ∧ InMemoryCache.get (InMemoryCache.delete c k) k' = InMemoryCache.get c k').
Proof.
  intros c k k' v. unfold InMemoryCache.get, InMemoryCache.set, InMemoryCache.delete.
  simpl. split; [|split].
  - by rewrite lookup_insert_eq.
  - by rewrite lookup_delete_eq.
  - intros Hne. rewrite lookup_insert_ne, lookup_delete_ne by congruence. done.
Qed.

(** ** Reading a plain object *)

Lemma get_property_own {A} (m : gmap string A) key a :
  m !! key = Some a → get_property m key = Own a.
Proof. intros Hk. unfold get_property. by rewrite Hk. Qed.

Lemma get_property_absent {A} (m : gmap string A) key :
  ordinary key → m !! key = None → get_property m key = Absent.
Proof. intros Hord Hk. unfold get_property. rewrite Hk. by rewrite decide_True. Qed.

Lemma get_property_inherited {A} (m : gmap string A) key :
  key ∈ Object_prototype_names → m !! key = None →
  get_property m key = Inherited key.
Proof.
  intros Hin Hk. unfold get_property. rewrite Hk.
  rewrite decide_False; [done|]. unfold ordinary. by intros Hnot.
Qed.

(** ** One call of [fetchData] *)

Section EngineFacts.
Context {C : Type} `{!CachePlugin C}.
Implicit Types (s : engine C) (key : string) (r : QueryState).

Lemma lookup_record_put s key r :
  lookup_record (setQueryStore (put_record key r) s) key = Some r.
Proof.
  unfold lookup_record, setQueryStore, put_record. simpl.
  rewrite lookup_insert_eq. simpl. by apply list_lookup_middle.
Qed.

Lemma setQueryStore_mark_fetching s key fetchFn :
  setQueryStore (mark_fetching key fetchFn) s =
    match queryStore s !! key with
    | None => setQueryStore (put_record key (loading_record key fetchFn)) s
    | Some l => setQueryStore (assign_isFetching l) s
    end.
Proof.
  unfold setQueryStore, mark_fetching. cbn. by destruct (queryStore s !! key).
Qed.

Lemma lookup_record_mark_fetching s key fetchFn :
  lookup_record (setQueryStore (mark_fetching key fetchFn) s) key =
    match queryStore s !! key with
    | None => Some (loading_record key fetchFn)
    | Some l => set_isFetching <$> heap s !! l
    end.
Proof.
  unfold lookup_record, setQueryStore, mark_fetching, put_record. cbn.
  destruct (queryStore s !! key) as [l|] eqn:Hk; cbn.
  - rewrite Hk. cbn. apply list_lookup_alter_eq.
  - rewrite lookup_insert_eq. cbn. by apply list_lookup_middle.
Qed.

(** The fields [fetchData] leaves alone. *)
Lemma queryStoreRef_fetchData s key fetchFn :
  queryStoreRef (fetchData key fetchFn s) = queryStoreRef s.
Proof.
  unfold fetchData, cache_read. by repeat case_match.
Qed.

Lemma cache_cache_read s key fetchFn :
  cache (cache_read key fetchFn s) = cache s.
Proof.
  unfold cache_read. by repeat case_match.
Qed.

Lemma pending_cache_read s key fetchFn :
  pending (cache_read key fetchFn s) = pending s
  ∧ calls (cache_read key fetchFn s) = calls s.
Proof.
  unfold cache_read. by repeat case_match.
Qed.

Lemma ref_isFetching_absent s key :
  queryStoreRef s !! key = None → ref_isFetching s key = false.
Proof. intros Hk. unfold ref_isFetching, ref_record. by rewrite Hk. Qed.

(** A call that is not suppressed calls [fetchFn] once and suspends. *)
Lemma fetchData_calls s key fetchFn :
  ref_isFetching s key = false →
  pending (fetchData key fetchFn s) = pending s ++ [(key, fetchFn)]
  ∧ calls (fetchData key fetchFn s) = calls s ++ [(key, fetchFn)].
Proof.
  intros Hf. unfold fetchData. rewrite Hf. simpl.
  by destruct (pending_cache_read s key fetchFn) as [-> ->].
Qed.

(** A suppressed call does nothing at all. *)
Lemma fetchData_suppressed s key fetchFn :
  ref_isFetching s key = true → fetchData key fetchFn s = s.
Proof. intros Hf. unfold fetchData. by rewrite Hf. Qed.

(** A property every step keeps holds after any run. *)
Lemma run_preserves (P : engine C → Prop) (Q : event → Prop) evs :
  (∀ s ev, Q ev → P s → P (step s ev)) →
  Forall Q evs → ∀ s, P s → P (run s evs).
Proof.
  intros Hstep. induction 1 as [|ev evs Hev _ IH]; intros s Hs; [done|].
  apply IH. by apply Hstep.
Qed.

(** What a settling call does, spelled out. *)
Lemma step_settle_resolved s n key fetchFn (W : jsval) :
  pending s !! n = Some (key, fetchFn) →
  step s (Settle n (Resolved W)) =
    setQueryStore (put_record key (success_record key fetchFn W))
      (cache_write key W (take_pending n s)).
Proof. intros Hn. unfold step. by rewrite Hn. Qed.

Lemma step_settle_rejected s n key fetchFn (E : jsval) :
  pending s !! n = Some (key, fetchFn) →
  step s (Settle n (Rejected E)) =
    setQueryStore (put_record key (error_record key fetchFn E)) (take_pending n s).
Proof. intros Hn. unfold step. by rewrite Hn. Qed.

(** The record of the key when a call that was not suppressed suspends. *)
Lemma lookup_record_fetchData s key fetchFn :
  ref_isFetching s key = false →
  lookup_record (fetchData key fetchFn s) key =
    match queryStore (cache_read key fetchFn s) !! key with
    | None => Some (loading_record key fetchFn)
    | Some l => set_isFetching <$> heap (cache_read key fetchFn s) !! l
    end.
Proof.
  intros Hf. rewrite <- lookup_record_mark_fetching.
  unfold fetchData. by rewrite Hf.
Qed.

(** C2, as amended. For a key that names nothing in [Object.prototype], a
    call of [fetchData] that is not suppressed leaves the record of the key
    with [isFetching = true]. If the store holds no record for the key after
    the cache-read step, the record is created with [status = loading],
    neither [data] nor [error], and [refetch] bound to this call; otherwise
    the record keeps its status, data, error and refetch handle, so a
    success or error record (or one just published from the cache) stays
    success or error while it is fetching. *)
Theorem fetchData_marks_fetching s key fetchFn :
  ordinary key →
  ref_isFetching s key = false →
  (queryStore (cache_read key fetchFn s) !! key = None →
   lookup_record (fetchData key fetchFn s) key
   = Some {| status := Loading; data := None; error := None;
             isFetching := true; refetch := (key, fetchFn) |})
  ∧ (∀ r, lookup_record (cache_read key fetchFn s) key = Some r →
       lookup_record (fetchData key fetchFn s) key
       = Some {| status := status r; data := data r; error := error r;
                 isFetching := true; refetch := refetch r |}).
Proof.
  intros _ Hf. rewrite (lookup_record_fetchData _ _ _ Hf). unfold lookup_record.
  destruct (queryStore (cache_read key fetchFn s) !! key) as [l|] eqn:Hk; cbn.
  - split; [done|]. intros r Hr. by rewrite Hr.
  - split; [done|]. by intros r.
Qed.

(** The cache-read step on a key the ref does not hold, for a key that names
    nothing in [Object.prototype]. *)
Lemma cache_read_hit s key fetchFn (c : C) :
  ordinary key →
  cache s = Some c →
  queryStoreRef s !! key = None →
  cache_get c key ≠ JUndefined →
  cache_read key fetchFn s
  = setQueryStore (put_record key (success_record key fetchFn (cache_get c key))) s.
Proof.
  intros Hord Hc Href Hdef. unfold cache_read.
  rewrite Hc, (get_property_absent _ _ Hord Href). by case_decide.
Qed.

(** C3, on the code. For a key that names a member of [Object.prototype]
    (such as ["constructor"]) and has no record, the test
    [!queryStoreRef.current[key]] of the cache-read step fails on the
    inherited member: whatever the cache holds for the key, the step leaves
    the provider as it is; [cache.get] is not consulted and no success
    record is published. *)
Theorem cache_read_skips_inherited_names s key fetchFn :
  key ∈ Object_prototype_names →
  queryStoreRef s !! key = None →
  get_property (queryStoreRef s) key = Inherited key
  ∧ cache_read key fetchFn s = s.
Proof.
  intros Hin Href. pose proof (get_property_inherited _ _ Hin Href) as Hget.
  split; [done|]. unfold cache_read. rewrite Hget. by destruct (cache s).
Qed.

(** C4. When a suspended call resolves with [W], the record of its key
    becomes a record with [status = success], [data = W], no [error],
    [isFetching = false] and [refetch] bound to the call, and a configured
    cache receives [set(key, W)]; when the call fails, the cache is left
    exactly as it was. *)
Theorem settle_writes_through s n key fetchFn :
  pending s !! n = Some (key, fetchFn) →
  (∀ W, lookup_record (step s (Settle n (Resolved W))) key
          = Some {| status := Success; data := Some W; error := None;
                    isFetching := false; refetch := (key, fetchFn) |}
        ∧ cache (step s (Settle n (Resolved W)))
          = (λ c, cache_set c key W) <$> cache s)
  ∧ (∀ E, cache (step s (Settle n (Rejected E))) = cache s).
Proof.
  intros Hn. split.
  - intros W. rewrite (step_settle_resolved _ _ _ _ _ Hn).
    split; [apply lookup_record_put | done].
  - intros E. by rewrite (step_settle_rejected _ _ _ _ _ Hn).
Qed.

(** C5. A failing [fetchFn] is caught: the rest of [fetchData] completes
    normally, the record of the key becomes a record with [status = error],
    [error] the failure value as it is, no [data], [isFetching = false];
    [fetchFn] is not called again, nothing stays suspended for that call,
    and the hook reading the error record does not schedule a new fetch. *)
Theorem rejection_is_recorded s n key fetchFn (E : jsval) :
  pending s !! n = Some (key, fetchFn) →
  ∃ s', fetchData_resume key fetchFn (Rejected E) (take_pending n s) = Normal s'
        ∧ step s (Settle n (Rejected E)) = s'
        ∧ lookup_record s' key
          = Some {| status := Error; data := None; error := Some E;
                    isFetching := false; refetch := (key, fetchFn) |}
        ∧ calls s' = calls s
        ∧ pending s' = base.delete n (pending s)
        ∧ ∀ fetchFn', useQuery (Some s') key fetchFn'
                       = Normal (Returned
                                   {| status := Error; data := None; error := Some E;
                                      isFetching := false; refetch := (key, fetchFn) |},
                                 false).
Proof.
  intros Hn. eexists. split; [reflexivity|]. split.
  - by rewrite (step_settle_rejected _ _ _ _ _ Hn).
  - split; [apply lookup_record_put|]. split; [done|]. split; [done|].
    intros fetchFn'. unfold useQuery. by rewrite lookup_record_put.
Qed.

(** *** The shape of record objects *)

Lemma well_shaped_set_isFetching r : well_shaped r → well_shaped (set_isFetching r).
Proof. done. Qed.

Lemma shaped_put s key r :
  well_shaped r → Forall well_shaped (heap s) →
  Forall well_shaped (heap (setQueryStore (put_record key r) s)).
Proof. intros Hr Hs. cbn. apply Forall_app. split; [done|]. by constructor. Qed.

Lemma shaped_mark_fetching s key fetchFn :
  Forall well_shaped (heap s) →
  Forall well_shaped (heap (setQueryStore (mark_fetching key fetchFn) s)).
Proof.
  intros Hs. unfold setQueryStore, mark_fetching. cbn.
  destruct (queryStore s !! key) as [l|]; cbn.
  - apply Forall_alter; [done|]. intros r _. apply well_shaped_set_isFetching.
  - apply Forall_app. split; [done|]. constructor; [|done]. by split.
Qed.

Lemma shaped_fetchData s key fetchFn :
  Forall well_shaped (heap s) →
  Forall well_shaped (heap (fetchData key fetchFn s)).
Proof.
  intros Hs. unfold fetchData. destruct (ref_isFetching s key); [done|].
  cbn -[setQueryStore]. apply shaped_mark_fetching.
  unfold cache_read. repeat case_match; try done.
  apply shaped_put; [|done]. split; [by eexists | done].
Qed.

Lemma shaped_step s ev :
  Forall well_shaped (heap s) → Forall well_shaped (heap (step s ev)).
Proof.
  intros Hs. destruct ev as [key fetchFn| |n [W|E]]; cbn -[fetchData setQueryStore].
  - by apply shaped_fetchData.
  - done.
  - destruct (pending s !! n) as [[key fetchFn]|]; [|done].
    cbn -[setQueryStore]. apply shaped_put; [|done]. split; [by eexists | done].
  - destruct (pending s !! n) as [[key fetchFn]|]; [|done].
    cbn -[setQueryStore]. apply shaped_put; [|done]. split; [done | by eexists].
Qed.

(** C6. In every record the store of a mounted provider can come to hold,
    at most one of [data] and [error] is present: a loading record has
    neither, a success record has [data] and no [error], an error record
    has [error] and no [data] (and no stored record is idle); the default
    record of a key not yet in the store has neither. *)
Theorem data_error_exclusive (cache : option C) evs key r :
  lookup_record (run (mount cache) evs) key = Some r →
  ((data r = None ∨ error r = None) ∧ well_shaped r)
  ∧ ∀ k fetchFn,
      data (defaultState k fetchFn) = None ∧ error (defaultState k fetchFn) = None.
Proof.
  intros Hr. split; [|done].
  assert (Forall well_shaped (heap (run (mount cache) evs))) as Hall.
  { apply (run_preserves (λ s, Forall well_shaped (heap s)) (λ _, True)).
    - intros s ev _. apply shaped_step.
    - by apply Forall_true.
    - constructor. }
  unfold lookup_record in Hr.
  destruct (queryStore (run (mount cache) evs) !! key) as [l|]; [|done].
  cbn in Hr. pose proof (Forall_lookup_1 _ _ _ _ Hall Hr) as Hshape.
  split; [|done]. unfold well_shaped in Hshape.
  destruct (status r); [done | left | right | left]; apply Hshape.
Qed.

(** *** Keys never passed to [fetchData] *)

Lemma untouched_put s key k r :
  k ≠ key → untouched key s → untouched key (setQueryStore (put_record k r) s).
Proof.
  intros Hne (Hst & Href & Hp). repeat split; [|done..].
  cbn. by rewrite lookup_insert_ne.
Qed.

Lemma untouched_mark_fetching s key k fetchFn :
  k ≠ key → untouched key s →
  untouched key (setQueryStore (mark_fetching k fetchFn) s).
Proof.
  intros Hne (Hst & Href & Hp). repeat split; [|done..].
  unfold setQueryStore, mark_fetching. cbn.
  destruct (queryStore s !! k); cbn; [done|]. by rewrite lookup_insert_ne.
Qed.

Lemma untouched_fetchData s key k fetchFn :
  k ≠ key → untouched key s → untouched key (fetchData k fetchFn s).
Proof.
  intros Hne Hs. unfold fetchData. destruct (ref_isFetching s k); [done|].
  assert (untouched key (cache_read k fetchFn s)) as Hread.
  { unfold cache_read. repeat case_match; try done. by apply untouched_put. }
  destruct (untouched_mark_fetching _ _ _ fetchFn Hne Hread) as (Hst & Href & Hp).
  repeat split; [done..|]. intros g. cbn -[setQueryStore].
  rewrite elem_of_app, list_elem_of_singleton. intros [Hin|[= ? ?]]; [|done].
  by apply (Hp g).
Qed.

Lemma untouched_step s key ev :
  not_invoke key ev → untouched key s → untouched key (step s ev).
Proof.
  intros Hev Hs. destruct ev as [k fetchFn| |n o]; cbn -[fetchData].
  - by apply untouched_fetchData.
  - destruct Hs as (Hst & Href & Hp). by split.
  - destruct (pending s !! n) as [[k fetchFn]|] eqn:Hn; [|done].
    assert (k ≠ key) as Hne.
    { intros ->. destruct Hs as (_ & _ & Hp).
      apply (Hp fetchFn). by eapply list_elem_of_lookup_2. }
    assert (untouched key (take_pending n s)) as Htake.
    { destruct Hs as (Hst & Href & Hp). split; [done|]. split; [done|].
      intros g Hin. apply (Hp g). cbn in Hin.
      by eapply list_elem_of_delete_inv. }
    destruct o as [W|E]; cbn -[setQueryStore].
    + apply untouched_put; [done|]. destruct Htake as (Hst & Href & Hp).
      by repeat split.
    + by apply untouched_put.
Qed.

Lemma untouched_run (cache : option C) evs key :
  Forall (not_invoke key) evs → untouched key (run (mount cache) evs).
Proof.
  intros Hevs. apply (run_preserves (untouched key) (not_invoke key)); [|done|].
  - intros s ev. apply untouched_step.
  - repeat split; [done..|]. intros g. cbn. apply not_elem_of_nil.
Qed.

(** C8, on the code. For a key that no event of the run passed to
    [fetchData] and that names a member of [Object.prototype] (such as
    ["toString"]), [queryStore[key]] is the inherited member: the hook
    returns that member, not the default record, and its effect will not
    call [fetchData]. *)
Theorem useQuery_returns_inherited_member (cache : option C) evs key fetchFn :
  Forall (not_invoke key) evs →
  key ∈ Object_prototype_names →
  useQuery (Some (run (mount cache) evs)) key fetchFn
    = Normal (ReturnedMember key, false)
  ∧ ∀ fires,
      useQuery (Some (run (mount cache) evs)) key fetchFn
      ≠ Normal (Returned (defaultState key fetchFn), fires).
Proof.
  intros Hevs Hin. destruct (untouched_run cache evs key Hevs) as (Hst & _ & _).
  assert (useQuery (Some (run (mount cache) evs)) key fetchFn
          = Normal (ReturnedMember key, false)) as Hq.
  { unfold useQuery, lookup_record. rewrite Hst. cbn.
    by rewrite (get_property_inherited _ _ Hin Hst). }
  split; [exact Hq|]. intros fires. by rewrite Hq.
Qed.

(** *** Locations stay valid and unshared *)

Lemma valid_put s key r : valid s → valid (setQueryStore (put_record key r) s).
Proof.
  intros (Hst & Href & Hinj). unfold valid. cbn. rewrite length_app. cbn.
  split; [|split].
  - intros k l. rewrite lookup_insert. case_decide.
    + intros [= <-]. lia.
    + intros Hk. apply Hst in Hk. lia.
  - intros k l Hk. apply Href in Hk. lia.
  - intros k1 k2 l. rewrite !lookup_insert.
    repeat case_decide; subst; try done.
    + intros [= <-] Hk. apply Hst in Hk. lia.
    + intros Hk [= <-]. apply Hst in Hk. lia.
    + apply Hinj.
Qed.

Lemma valid_mark_fetching s key fetchFn :
  valid s → valid (setQueryStore (mark_fetching key fetchFn) s).
Proof.
  intros Hs. rewrite setQueryStore_mark_fetching.
  destruct (queryStore s !! key) as [l|] eqn:Hk; [|by apply valid_put].
  destruct Hs as (Hst & Href & Hinj). unfold valid. cbn. rewrite length_alter.
  done.
Qed.

Lemma valid_cache_read s key fetchFn : valid s → valid (cache_read key fetchFn s).
Proof.
  intros Hs. unfold cache_read. repeat case_match; try done. by apply valid_put.
Qed.

Lemma valid_fetchData s key fetchFn : valid s → valid (fetchData key fetchFn s).
Proof.
  intros Hs. unfold fetchData. destruct (ref_isFetching s key); [done|].
  apply (valid_cache_read _ key fetchFn), (valid_mark_fetching _ key fetchFn) in Hs.
  destruct Hs as (Hst & Href & Hinj). by split.
Qed.

Lemma valid_step s ev : valid s → valid (step s ev).
Proof.
  intros Hs. destruct ev as [key fetchFn| |n o]; cbn -[fetchData setQueryStore].
  - by apply valid_fetchData.
  - destruct Hs as (Hst & Href & Hinj). by split.
  - destruct (pending s !! n) as [[key fetchFn]|]; [|done].
    destruct o as [W|E]; cbn -[setQueryStore]; by apply valid_put.
Qed.

Lemma valid_run (cache : option C) evs : valid (run (mount cache) evs).
Proof.
  apply (run_preserves valid (λ _, True)).
  - intros s ev _. apply valid_step.
  - by apply Forall_true.
  - by split.
Qed.

(** *** What deduplication the guard does give *)

(** Once a render has committed after a call that was not suppressed, a
    further call for the same key is suppressed: nothing changes, [fetchFn]
    is not called. *)
Lemma fetchData_after_commit_suppressed s key fetchFn fetchFn' :
  valid s →
  ref_isFetching s key = false →
  fetchData key fetchFn' (commit (fetchData key fetchFn s))
    = commit (fetchData key fetchFn s).
Proof.
  intros Hs Hf. apply fetchData_suppressed.
  pose proof (lookup_record_fetchData s key fetchFn Hf) as Hrec.
  unfold ref_isFetching, ref_record. cbn. unfold lookup_record in Hrec.
  rewrite Hrec.
  destruct (queryStore (cache_read key fetchFn s) !! key) as [l|] eqn:Hl; [|done].
  destruct (valid_cache_read s key fetchFn Hs) as (Hst & _ & _).
  pose proof (Hst _ _ Hl) as Hlt. apply lookup_lt_is_Some_2 in Hlt as [r Hr].
  by rewrite Hr.
Qed.

(** *** Other keys *)

Lemma lookup_record_put_ne s key key' r :
  valid s → key' ≠ key →
  lookup_record (setQueryStore (put_record key r) s) key' = lookup_record s key'.
Proof.
  intros (Hst & _ & _) Hne. unfold lookup_record. cbn.
  rewrite lookup_insert_ne by done.
  destruct (queryStore s !! key') as [l|] eqn:Hl; [|done]. cbn.
  apply lookup_app_l. by eapply Hst.
Qed.

Lemma lookup_record_mark_fetching_ne s key key' fetchFn :
  valid s → key' ≠ key →
  lookup_record (setQueryStore (mark_fetching key fetchFn) s) key'
    = lookup_record s key'.
Proof.
  intros Hs Hne. rewrite setQueryStore_mark_fetching.
  destruct (queryStore s !! key) as [l|] eqn:Hk; [|by apply lookup_record_put_ne].
  unfold lookup_record. cbn.
  destruct (queryStore s !! key') as [l'|] eqn:Hl; [|done]. cbn.
  apply list_lookup_alter_ne. intros ->.
  destruct Hs as (_ & _ & Hinj). by apply Hne, (Hinj key' key l').
Qed.

(** A call of [fetchData], and the settling of a call, leave the record of
    every other key as it was. *)
Lemma fetchData_other_keys s key key' fetchFn :
  valid s → key' ≠ key →
  lookup_record (fetchData key fetchFn s) key' = lookup_record s key'.
Proof.
  intros Hs Hne. unfold fetchData. destruct (ref_isFetching s key); [done|].
  transitivity (lookup_record (cache_read key fetchFn s) key').
  - apply (lookup_record_mark_fetching_ne _ key key' fetchFn); [|done].
    by apply valid_cache_read.
  - unfold cache_read. repeat case_match; try done. by apply lookup_record_put_ne.
Qed.

Lemma settle_other_keys s n key key' fetchFn o :
  valid s → key' ≠ key →
  pending s !! n = Some (key, fetchFn) →
  lookup_record (step s (Settle n o)) key' = lookup_record s key'.
Proof.
  intros Hs Hne Hn. cbn -[setQueryStore]. rewrite Hn.
  destruct o as [W|E]; cbn -[setQueryStore];
    by rewrite lookup_record_put_ne.
Qed.

(** *** Two calls with no commit in between *)

(** C1, on the code. On a provider that has just mounted, two calls of
    [fetchData] for one key with no render committed in between both read
    a ref that has no record for the key: neither is suppressed, [fetchFn]
    is called twice and two calls are outstanding for the key. *)
Theorem fetchData_twice_before_commit (cache : option C) key fetchFn fetchFn' :
  calls (run (mount cache) [Invoke key fetchFn; Invoke key fetchFn'])
    = [(key, fetchFn); (key, fetchFn')]
  ∧ outstanding (run (mount cache) [Invoke key fetchFn; Invoke key fetchFn']) key = 2.
Proof.
  cbn -[fetchData]. set (s1 := fetchData key fetchFn (mount cache)).
  assert (ref_isFetching (mount cache) key = false) as Hf0
    by (by apply ref_isFetching_absent).
  destruct (fetchData_calls _ key fetchFn Hf0) as [Hp1 Hc1]. fold s1 in Hp1, Hc1.
  assert (ref_isFetching s1 key = false) as Hf1.
  { apply ref_isFetching_absent. unfold s1. by rewrite queryStoreRef_fetchData. }
  destruct (fetchData_calls _ key fetchFn' Hf1) as [Hp2 Hc2].
  split; [by rewrite Hc2, Hc1|].
  unfold outstanding. rewrite Hp2, Hp1. cbn.
  by rewrite !decide_True.
Qed.

(** *** The record object a snapshot shares *)

(** C7, on the code. When the store and the ref hold the record object at
    location [l] for the key and it is not fetching, [fetchData] keeps the
    key at [l] and writes [isFetching = true] into that object: the
    snapshot it started from now shows a different record. *)
Theorem fetchData_writes_shared_record s key fetchFn (l : nat) r :
  queryStore s !! key = Some l →
  queryStoreRef s !! key = Some l →
  heap s !! l = Some r →
  isFetching r = false →
  queryStore (fetchData key fetchFn s) !! key = Some l
  ∧ heap (fetchData key fetchFn s) !! l = Some (set_isFetching r)
  ∧ set_isFetching r ≠ r.
Proof.
  intros Hst Href Hr Hnf.
  assert (ref_isFetching s key = false) as Hf.
  { unfold ref_isFetching, ref_record. rewrite Href. cbn. by rewrite Hr. }
  assert (cache_read key fetchFn s = s) as Hread.
  { unfold cache_read. rewrite (get_property_own _ _ _ Href). by destruct (cache s). }
  unfold fetchData. rewrite Hf, Hread.
  unfold setQueryStore, mark_fetching. cbn. rewrite Hst. cbn.
  split; [done|]. split.
  - by rewrite list_lookup_alter_eq, Hr.
  - intros Heq. apply (f_equal isFetching) in Heq. cbn in Heq. congruence.
Qed.

(** C9. Outside a provider the hook throws its usage error at once: no
    store is read, no state is returned and no fetch is scheduled. Inside a
    provider it never throws. *)
Theorem useQuery_outside_provider key fetchFn :
  useQuery (@None (engine C)) key fetchFn
    = Throw (JError "useQuery must be used within a QueryProvider")
  ∧ ∀ s, ∃ queryState fires,
      useQuery (Some s) key fetchFn = Normal (queryState, fires).
Proof.
  split; [reflexivity|]. intros s. unfold useQuery.
  destruct (lookup_record s key) as [q|]; [by do 2 eexists|].
  destruct (get_property (queryStore s) key); by do 2 eexists.
Qed.

End EngineFacts.

(** * The properties at work on the in-memory plugin *)

(** With the in-memory plugin, the value a call resolved with is what the
    cache answers for the key afterwards. *)
Lemma settle_then_cache_get (s : engine InMemoryCache.t) n key fetchFn W c :
  pending s !! n = Some (key, fetchFn) →
  cache s = Some c →
  ∃ c', cache (step s (Settle n (Resolved W))) = Some c'
        ∧ InMemoryCache.get c' key = W.
Proof.
  intros Hn Hc. exists (InMemoryCache.set c key W). split.
  - rewrite (step_settle_resolved _ _ _ _ _ Hn). cbn. by rewrite Hc.
  - unfold InMemoryCache.get, InMemoryCache.set. cbn. by rewrite lookup_insert_eq.
Qed.

(** Setting ["users"] leaves what the cache answers for ["posts"]. *)
Lemma InMemoryCache_get_set_delete_witness :
  "posts" ≠ "users"
  ∧ InMemoryCache.get (InMemoryCache.set users_cached "users" (JNum 1)) "posts"
    = InMemoryCache.get users_cached "posts".
Proof.
  split; [discriminate|].
  apply (InMemoryCache_get_set_delete users_cached "users" "posts" (JNum 1)).
  discriminate.
Defined.

(** The counterexample to C2 as stated: refetching a key whose record is a
    success record leaves its status at success, it does not go back to
    loading. *)
Lemma refetch_keeps_status :
  ¬ (∀ evs key fetchFn,
       ref_isFetching (run (mount (@None InMemoryCache.t)) evs) key = false →
       ∃ r, lookup_record (fetchData key fetchFn (run (mount None) evs)) key = Some r
            ∧ isFetching r = true ∧ status r = Loading).
Proof.
  intros Hclaim.
  destruct (Hclaim [Invoke "users" 1; Commit; Settle 0 (Resolved (JStr "alice")); Commit]
              "users" 2 eq_refl) as (r & Hr & _ & Hst).
  vm_compute in Hr. injection Hr as <-. discriminate Hst.
Defined.

(** Refetching the loaded key marks its success record as fetching and
    leaves the rest of it. *)
Lemma fetchData_marks_fetching_witness :
  ordinary "users"
  ∧ ref_isFetching users_loaded "users" = false
  ∧ lookup_record (fetchData "users" 2 users_loaded) "users"
    = Some {| status := Success; data := Some (JStr "alice"); error := None;
              isFetching := true; refetch := ("users", 1) |}.
Proof.
  assert (ordinary "users") as Hord by by_decision.
  assert (ref_isFetching users_loaded "users" = false) as Hf by reflexivity.
  assert (lookup_record (cache_read "users" 2 users_loaded) "users"
          = Some {| status := Success; data := Some (JStr "alice"); error := None;
                    isFetching := false; refetch := ("users", 1) |}) as Hr
    by reflexivity.
  split; [exact Hord|]. split; [exact Hf|].
  destruct (fetchData_marks_fetching users_loaded "users" 2 Hord Hf) as [_ Hkeep].
  exact (Hkeep _ Hr).
Defined.

(** A cache holding a value under ["constructor"] is not consulted for it. *)
Lemma cache_read_skips_inherited_names_witness :
  "constructor" ∈ Object_prototype_names
  ∧ cache_get constructor_cached "constructor" = JStr "cached"
  ∧ cache_read "constructor" 1 (mount (Some constructor_cached))
    = mount (Some constructor_cached).
Proof.
  assert ("constructor" ∈ Object_prototype_names) as Hin
    by by_decision.
  split; [exact Hin|]. split; [reflexivity|].
  apply (cache_read_skips_inherited_names (mount (Some constructor_cached))
           "constructor" 1 Hin eq_refl).
Defined.

(** The suspended call resolving with 42 writes the success record and 42
    to the cache; its failing leaves the cache alone. *)
Lemma settle_writes_through_witness :
  pending users_in_flight !! 0 = Some ("users", 1)
  ∧ lookup_record (step users_in_flight (Settle 0 (Resolved (JNum 42)))) "users"
    = Some {| status := Success; data := Some (JNum 42); error := None;
              isFetching := false; refetch := ("users", 1) |}
  ∧ (λ c, InMemoryCache.get c "users") <$>
       cache (step users_in_flight (Settle 0 (Resolved (JNum 42))))
    = Some (JNum 42)
  ∧ cache (step users_in_flight (Settle 0 (Rejected (JError "boom"))))
    = cache users_in_flight.
Proof.
  assert (pending users_in_flight !! 0 = Some ("users", 1)) as Hn by reflexivity.
  split; [exact Hn|].
  destruct (settle_writes_through users_in_flight 0 "users" 1 Hn) as [Hres Hrej].
  destruct (Hres (JNum 42)) as [Hrec Hcache].
  split; [exact Hrec|]. split; [|apply Hrej].
  rewrite Hcache. reflexivity.
Defined.

(** The suspended call failing with an [Error] leaves the error record. *)
Lemma rejection_is_recorded_witness :
  pending users_in_flight !! 0 = Some ("users", 1)
  ∧ lookup_record (step users_in_flight (Settle 0 (Rejected (JError "boom")))) "users"
    = Some {| status := Error; data := None; error := Some (JError "boom");
              isFetching := false; refetch := ("users", 1) |}.
Proof.
  assert (pending users_in_flight !! 0 = Some ("users", 1)) as Hn by reflexivity.
  split; [exact Hn|].
  destruct (rejection_is_recorded users_in_flight 0 "users" 1 (JError "boom") Hn)
    as (s' & _ & -> & Hrec & _).
  exact Hrec.
Defined.

(** The loaded key holds a success record: data, no error. *)
Lemma data_error_exclusive_witness :
  lookup_record users_loaded "users" = Some (success_record "users" 1 (JStr "alice"))
  ∧ (data (success_record "users" 1 (JStr "alice")) = None
     ∨ error (success_record "users" 1 (JStr "alice")) = None).
Proof.
  split; [reflexivity|].
  apply (data_error_exclusive None
           [Invoke "users" 1; Commit; Settle 0 (Resolved (JStr "alice")); Commit]
           "users" (success_record "users" 1 (JStr "alice")) eq_refl).
Defined.

(** On a provider that just mounted, the hook reading ["toString"] gets the
    inherited member. *)
Lemma useQuery_returns_inherited_member_witness :
  Forall (not_invoke "toString") [Invoke "users" 1; Commit]
  ∧ "toString" ∈ Object_prototype_names
  ∧ useQuery (Some users_in_flight) "toString" 3
    = Normal (ReturnedMember "toString", false).
Proof.
  assert (Forall (not_invoke "toString") [Invoke "users" 1; Commit]) as Hevs
    by (repeat constructor; discriminate).
  assert ("toString" ∈ Object_prototype_names) as Hin
    by by_decision.
  split; [exact Hevs|]. split; [exact Hin|].
  destruct (useQuery_returns_inherited_member (Some InMemoryCache.new)
              [Invoke "users" 1; Commit] "toString" 3 Hevs Hin) as [Hq _].
  exact Hq.
Defined.

(** Refetching the loaded key changes the record object at location 1, the
    one the committed snapshot holds. *)
Lemma fetchData_writes_shared_record_witness :
  queryStore users_loaded !! "users" = Some 1
  ∧ heap users_loaded !! 1 = Some (success_record "users" 1 (JStr "alice"))
  ∧ heap (fetchData "users" 2 users_loaded) !! 1
    = Some (set_isFetching (success_record "users" 1 (JStr "alice"))).
Proof.
  split; [reflexivity|]. split; [reflexivity|].
  apply (fetchData_writes_shared_record users_loaded "users" 2 1
           (success_record "users" 1 (JStr "alice"))); reflexivity.
Defined.

(** * Further properties of the code *)

Section MoreFacts.
Context {C : Type} `{!CachePlugin C}.
Implicit Types (s : engine C) (key : string) (r : QueryState).

(** ** The two providers *)

(** X1. On a provider mounted without a [cache] prop, [fetchData] of the
    cache-aware provider does exactly what [fetchData] of the plain provider
    does, before and after the [await]. *)
Theorem fetchData_without_cache s key fetchFn (o : outcome) :
  cache s = None →
  fetchData key fetchFn s = fetchData_plain key fetchFn s
  ∧ fetchData_resume key fetchFn o s = fetchData_plain_resume key fetchFn o s.
Proof.
  intros Hc. split.
  - unfold fetchData, fetchData_plain, cache_read. by rewrite Hc.
  - assert (cache_write key (match o with Resolved v => v | Rejected e => e end) s = s)
      as Hw by (destruct s; cbn in *; by subst).
    unfold fetchData_resume, fetchData_plain_resume.
    destruct o as [v|e]; cbn -[setQueryStore] in *; [by rewrite Hw | done].
Qed.

(** ** What every record object satisfies *)

(** A property of records that holds of the three literals and survives the
    assignment to [isFetching] holds of every object after any step. *)
Lemma heap_Forall_step (P : QueryState → Prop) s ev :
  (∀ r, P r → P (set_isFetching r)) →
  (∀ k f, P (loading_record k f)) →
  (∀ k f d, P (success_record k f d)) →
  (∀ k f e, P (error_record k f e)) →
  Forall P (heap s) → Forall P (heap (step s ev)).
Proof.
  intros Hset Hload Hsucc Herr Hs.
  assert (∀ s' k r, P r → Forall P (heap s') →
            Forall P (heap (setQueryStore (put_record k r) s'))) as Hput.
  { intros s' k r Hr Hs'. cbn. apply Forall_app. split; [done|]. by constructor. }
  destruct ev as [key fetchFn| |n [W|E]]; cbn -[fetchData setQueryStore].
  - unfold fetchData. destruct (ref_isFetching s key); [done|].
    cbn -[setQueryStore]. rewrite setQueryStore_mark_fetching.
    assert (Forall P (heap (cache_read key fetchFn s))) as Hread.
    { unfold cache_read. repeat case_match; try done. by apply Hput. }
    destruct (queryStore (cache_read key fetchFn s) !! key) as [l|].
    + cbn. apply Forall_alter; [done|]. intros r _. apply Hset.
    + by apply Hput.
  - done.
  - destruct (pending s !! n) as [[key fetchFn]|]; [|done].
    cbn -[setQueryStore]. by apply Hput.
  - destruct (pending s !! n) as [[key fetchFn]|]; [|done].
    cbn -[setQueryStore]. by apply Hput.
Qed.

Lemma heap_Forall_run (P : QueryState → Prop) (cache : option C) evs :
  (∀ r, P r → P (set_isFetching r)) →
  (∀ k f, P (loading_record k f)) →
  (∀ k f d, P (success_record k f d)) →
  (∀ k f e, P (error_record k f e)) →
  ∀ key r, lookup_record (run (mount cache) evs) key = Some r → P r.
Proof.
  intros Hset Hload Hsucc Herr key r Hr.
  assert (Forall P (heap (run (mount cache) evs))) as Hall.
  { apply (run_preserves (λ s, Forall P (heap s)) (λ _, True)).
    - intros s ev _. by apply heap_Forall_step.
    - by apply Forall_true.
    - constructor. }
  unfold lookup_record in Hr.
  destruct (queryStore (run (mount cache) evs) !! key) as [l|]; [|done].
  by eapply Forall_lookup_1.
Qed.

Lemma lookup_record_None s key :
  valid s → lookup_record s key = None → queryStore s !! key = None.
Proof.
  intros (Hst & _ & _) Hnone. unfold lookup_record in Hnone.
  destruct (queryStore s !! key) as [l|] eqn:Hl; [|done]. cbn in Hnone.
  pose proof (Hst _ _ Hl) as Hlt. apply lookup_lt_is_Some_2 in Hlt as [r Hr].
  congruence.
Qed.

(** X2. On a provider whose [fetchData] calls were all for keys that name
    nothing in [Object.prototype], and for such a key: once the updates of
    the run are rendered, the hook returns the stored record when the key
    has one and the default record otherwise, and its effect asks for a
    fetch exactly when the key has no record. A stored record is never idle
    and a stored loading record is always fetching, so the two other
    disjuncts of the effect's condition never hold. *)
Theorem useQuery_fires_iff_absent (cache : option C) evs key fetchFn :
  ordinary key →
  Forall ordinary_event evs →
  ∃ queryState fires,
    useQuery (Some (commit (run (mount cache) evs))) key fetchFn
      = Normal (Returned queryState, fires)
    ∧ (fires = true ↔ lookup_record (commit (run (mount cache) evs)) key = None)
    ∧ (lookup_record (commit (run (mount cache) evs)) key = None →
       queryState = {| status := Idle; data := None; error := None;
                       isFetching := false; refetch := (key, fetchFn) |})
    ∧ ∀ r, lookup_record (commit (run (mount cache) evs)) key = Some r →
           queryState = r
           ∧ status r ≠ Idle
           ∧ (status r = Loading → isFetching r = true).
Proof.
  intros Hord _.
  pose proof (heap_Forall_run
    (λ r, status r ≠ Idle ∧ (status r = Loading → isFetching r = true))
    cache evs) as Hinv.
  change (lookup_record (commit (run (mount cache) evs)) key)
    with (lookup_record (run (mount cache) evs) key).
  unfold useQuery.
  change (lookup_record (commit (run (mount cache) evs)) key)
    with (lookup_record (run (mount cache) evs) key).
  change (queryStore (commit (run (mount cache) evs)))
    with (queryStore (run (mount cache) evs)).
  destruct (lookup_record (run (mount cache) evs) key) as [r|] eqn:Hr.
  - destruct (Hinv) with (key := key) (r := r) as [Hidle Hload];
      [by intros ? [? ?] | done | done | done | done |].
    do 2 eexists. split; [reflexivity|]. cbn. split; [|split; [done|]].
    + split; [|done]. rewrite bool_decide_eq_false_2 by done. cbn.
      destruct (decide (status r = Loading)) as [Hl|Hl].
      * rewrite (Hload Hl). by rewrite andb_false_r.
      * by rewrite bool_decide_eq_false_2.
    + by intros ? [= <-].
  - apply lookup_record_None in Hr; [|apply valid_run].
    rewrite (get_property_absent _ _ Hord Hr).
    do 2 eexists. split; [reflexivity|]. split; [done|]. split; [done|]. done.
Qed.

(** ** Keys of the store *)

Lemma store_keys_put s key k r :
  is_Some (queryStore s !! k) →
  is_Some (queryStore (setQueryStore (put_record key r) s) !! k).
Proof.
  intros Hk. cbn. rewrite lookup_insert. by case_decide.
Qed.

Lemma store_keys_fetchData s key k fetchFn :
  is_Some (queryStore s !! k) → is_Some (queryStore (fetchData key fetchFn s) !! k).
Proof.
  intros Hk. unfold fetchData. destruct (ref_isFetching s key); [done|].
  cbn -[setQueryStore]. rewrite setQueryStore_mark_fetching.
  assert (is_Some (queryStore (cache_read key fetchFn s) !! k)) as Hread.
  { unfold cache_read. repeat case_match; try done. by apply store_keys_put. }
  destruct (queryStore (cache_read key fetchFn s) !! key); [done|].
  by apply store_keys_put.
Qed.

Lemma store_keys_step s ev k :
  is_Some (queryStore s !! k) → is_Some (queryStore (step s ev) !! k).
Proof.
  intros Hk. destruct ev as [key fetchFn| |n [W|E]]; cbn -[fetchData setQueryStore].
  - by apply store_keys_fetchData.
  - done.
  - destruct (pending s !! n) as [[key fetchFn]|]; [|done].
    cbn -[setQueryStore]. by apply store_keys_put.
  - destruct (pending s !! n) as [[key fetchFn]|]; [|done].
    cbn -[setQueryStore]. by apply store_keys_put.
Qed.

(** A call of [fetchData] leaves its key in the store, suppressed or not. *)
Lemma store_key_fetchData s key fetchFn :
  ref_within_store s → is_Some (queryStore (fetchData key fetchFn s) !! key).
Proof.
  intros Href. unfold fetchData.
  destruct (ref_isFetching s key) eqn:Hf.
  - apply Href. unfold ref_isFetching, ref_record in Hf.
    destruct (queryStoreRef s !! key); [by eexists | done].
  - cbn -[setQueryStore]. rewrite setQueryStore_mark_fetching.
    destruct (queryStore (cache_read key fetchFn s) !! key) as [l|] eqn:Hk.
    + cbn. rewrite Hk. by eexists.
    + cbn. rewrite lookup_insert_eq. by eexists.
Qed.

Lemma ref_within_store_step s ev : ref_within_store s → ref_within_store (step s ev).
Proof.
  intros Hs k. destruct ev as [key fetchFn| |n o].
  - cbn -[fetchData]. rewrite queryStoreRef_fetchData. intros Hk.
    by apply store_keys_fetchData, Hs.
  - done.
  - intros Hk. apply (store_keys_step s (Settle n o)), Hs.
    revert Hk. cbn -[setQueryStore].
    destruct (pending s !! n) as [[key fetchFn]|]; [|done]. by destruct o.
Qed.

Lemma ref_within_store_run (cache : option C) evs :
  ref_within_store (run (mount cache) evs).
Proof.
  apply (run_preserves ref_within_store (λ _, True)).
  - intros s ev _. apply ref_within_store_step.
  - by apply Forall_true.
  - intros k. cbn. rewrite lookup_empty. by intros [? ?].
Qed.

Lemma lookup_record_is_Some s key :
  valid s → is_Some (queryStore s !! key) → is_Some (lookup_record s key).
Proof.
  intros (Hst & _ & _) [l Hl]. unfold lookup_record. rewrite Hl. cbn.
  apply lookup_lt_is_Some_2. by eapply Hst.
Qed.

Lemma invoked_key_in_store (cache : option C) evs key fetchFn :
  Invoke key fetchFn ∈ evs →
  is_Some (queryStore (run (mount cache) evs) !! key).
Proof.
  intros Hin. apply list_elem_of_split in Hin as (evs1 & evs2 & ->).
  unfold run. rewrite foldl_app. cbn -[fetchData].
  apply (run_preserves (λ s, is_Some (queryStore s !! key)) (λ _, True)).
  - intros s ev _. apply store_keys_step.
  - by apply Forall_true.
  - apply store_key_fetchData, ref_within_store_run.
Qed.

(** X3. On a provider whose [fetchData] calls were all for keys that name
    nothing in [Object.prototype]: once [fetchData] has been called for a
    key and the updates of the run are rendered, the store holds a record
    for the key, whatever happened after the call and whether or not the
    call was suppressed. *)
Theorem fetched_key_has_record (cache : option C) evs key fetchFn :
  Forall ordinary_event evs →
  Invoke key fetchFn ∈ evs →
  is_Some (lookup_record (commit (run (mount cache) evs)) key).
Proof.
  intros _ Hin.
  change (is_Some (lookup_record (run (mount cache) evs) key)).
  apply lookup_record_is_Some; [apply valid_run|].
  by eapply invoked_key_in_store.
Qed.

(** X4. On such a provider no step removes a key: a key that has a record in
    a rendered store still has one in the rendered store of any longer
    run. *)
Theorem record_never_removed (cache : option C) evs evs' key :
  Forall ordinary_event (evs ++ evs') →
  is_Some (lookup_record (commit (run (mount cache) evs)) key) →
  is_Some (lookup_record (commit (run (mount cache) (evs ++ evs'))) key).
Proof.
  intros _ Hk.
  change (is_Some (lookup_record (run (mount cache) evs) key)) in Hk.
  change (is_Some (lookup_record (run (mount cache) (evs ++ evs')) key)).
  apply lookup_record_is_Some; [apply valid_run|].
  unfold run. rewrite foldl_app.
  apply (run_preserves (λ s, is_Some (queryStore s !! key)) (λ _, True)).
  - intros s ev _. apply store_keys_step.
  - by apply Forall_true.
  - unfold lookup_record in Hk.
    destruct (queryStore (foldl step (mount cache) evs) !! key) eqn:Hl; [done|].
    unfold run in Hk. rewrite Hl in Hk. by destruct Hk.
Qed.

(** ** Keys do not interfere *)

(** X5. On a provider whose [fetchData] calls were all for keys that name
    nothing in [Object.prototype], distinct keys hold distinct record
    objects, and a call of [fetchData] for such a key, or the settling of a
    call, leaves the record of every other key as it was. *)
Theorem other_keys_unchanged (cache : option C) evs key' :
  Forall ordinary_event evs →
  (∀ k1 k2 l, queryStore (run (mount cache) evs) !! k1 = Some l →
              queryStore (run (mount cache) evs) !! k2 = Some l → k1 = k2)
  ∧ (∀ key fetchFn, ordinary key → key ≠ key' →
       lookup_record (fetchData key fetchFn (run (mount cache) evs)) key'
       = lookup_record (run (mount cache) evs) key')
  ∧ (∀ n o key fetchFn,
       pending (run (mount cache) evs) !! n = Some (key, fetchFn) → key ≠ key' →
       lookup_record (step (run (mount cache) evs) (Settle n o)) key'
       = lookup_record (run (mount cache) evs) key').
Proof.
  intros _. pose proof (valid_run cache evs) as Hv. split; [apply Hv|]. split.
  - intros key fetchFn _ Hne. by apply fetchData_other_keys.
  - intros n o key fetchFn Hn Hne. by eapply settle_other_keys.
Qed.

(** ** The ref between a settled call and the next render *)

Lemma ref_record_put s key k r :
  valid s → ref_record (setQueryStore (put_record k r) s) key = ref_record s key.
Proof.
  intros (_ & Href & _). unfold ref_record. cbn.
  destruct (queryStoreRef s !! key) as [l|] eqn:Hl; [|done]. cbn.
  apply lookup_app_l. by eapply Href.
Qed.

Lemma ref_record_settle s n o key :
  valid s → ref_record (step s (Settle n o)) key = ref_record s key.
Proof.
  intros Hs. cbn -[setQueryStore].
  destruct (pending s !! n) as [[k fetchFn]|]; [|done].
  destruct o as [W|E]; cbn -[setQueryStore]; by rewrite ref_record_put.
Qed.

Lemma calls_step_settle s n o : calls (step s (Settle n o)) = calls s.
Proof.
  cbn -[setQueryStore]. destruct (pending s !! n) as [[k fetchFn]|]; [|done].
  by destruct o.
Qed.

(** X6. On a provider whose [fetchData] calls were all for keys that name
    nothing in [Object.prototype], take the state a committed render leaves,
    with a call suspended for a key the ref shows as fetching. When that
    call settles, the store (once its update is applied) shows the key as
    not fetching, but the ref still holds the record object that says it
    is: until the next render commits, a call of [fetchData] for that key
    (a refetch) is suppressed and [fetchFn] is not called. *)
Theorem refetch_suppressed_until_commit (cache : option C) evs n o key fetchFn fetchFn' :
  Forall ordinary_event evs →
  pending (commit (run (mount cache) evs)) !! n = Some (key, fetchFn) →
  ref_isFetching (commit (run (mount cache) evs)) key = true →
  (∃ r, lookup_record (step (commit (run (mount cache) evs)) (Settle n o)) key = Some r
        ∧ isFetching r = false)
  ∧ fetchData key fetchFn' (step (commit (run (mount cache) evs)) (Settle n o))
    = step (commit (run (mount cache) evs)) (Settle n o)
  ∧ calls (fetchData key fetchFn' (step (commit (run (mount cache) evs)) (Settle n o)))
    = calls (run (mount cache) evs).
Proof.
  intros _ Hn Hf.
  assert (valid (commit (run (mount cache) evs))) as Hv
    by apply (valid_step _ Commit), valid_run.
  assert (fetchData key fetchFn' (step (commit (run (mount cache) evs)) (Settle n o))
          = step (commit (run (mount cache) evs)) (Settle n o)) as Hsup.
  { apply fetchData_suppressed. unfold ref_isFetching in *.
    by rewrite ref_record_settle. }
  split; [|split; [exact Hsup|]].
  - destruct o as [W|E].
    + rewrite (step_settle_resolved _ _ _ _ _ Hn), lookup_record_put. by eexists.
    + rewrite (step_settle_rejected _ _ _ _ _ Hn), lookup_record_put. by eexists.
  - rewrite Hsup, calls_step_settle. done.
Qed.

(** X7. While a call for a key is in flight and a render has committed since
    it started, any number of further calls of [fetchData] for that key and
    of renders changes nothing: no [fetchFn] call, no store update. *)
Theorem in_flight_blocks_invokes (cache : option C) evs0 key fetchFn evs :
  ref_isFetching (run (mount cache) evs0) key = false →
  Forall (invoke_or_commit key) evs →
  run (commit (fetchData key fetchFn (run (mount cache) evs0))) evs
  = commit (fetchData key fetchFn (run (mount cache) evs0)).
Proof.
  intros Hf Hevs. induction Hevs as [|ev evs Hev _ IH]; [done|].
  unfold run in *. cbn -[fetchData]. destruct ev as [k g| |n o]; cbn in Hev.
  - subst k. cbn -[fetchData].
    rewrite fetchData_after_commit_suppressed; [done | apply valid_run | done].
  - exact IH.
  - done.
Qed.

(** ** Which [fetchFn] is called, and when *)

Lemma calls_step s ev :
  calls (step s ev) =
    calls s ++ match ev with
               | Invoke key fetchFn =>
                   if ref_isFetching s key then [] else [(key, fetchFn)]
               | _ => []
               end.
Proof.
  destruct ev as [key fetchFn| |n o]; cbn -[fetchData setQueryStore].
  - destruct (ref_isFetching s key) eqn:Hf.
    + by rewrite fetchData_suppressed, app_nil_r.
    + by destruct (fetchData_calls s key fetchFn Hf) as [_ ->].
  - by rewrite app_nil_r.
  - rewrite app_nil_r. destruct (pending s !! n) as [[key fetchFn]|]; [|done].
    by destruct o.
Qed.

(** X8. [fetchFn] is called by calls of [fetchData] only, at most once per
    call and with the key and producer of that call: what a run adds to the
    log of [fetchFn()] calls is no longer than the number of its [fetchData]
    calls, each entry comes from one of them, and nothing logged before is
    lost. Renders and settling calls call no [fetchFn]. *)
Theorem fetchFn_called_only_by_fetchData s evs :
  ∃ new, calls (run s evs) = calls s ++ new
         ∧ (length new ≤ invoke_count evs)%nat
         ∧ ∀ key fetchFn, (key, fetchFn) ∈ new → Invoke key fetchFn ∈ evs.
Proof.
  revert s. induction evs as [|ev evs IH]; intros s.
  - exists []. split; [by rewrite app_nil_r|]. split; [done|].
    intros ?? Hin. by apply not_elem_of_nil in Hin.
  - destruct (IH (step s ev)) as (new & Hrun & Hlen & Hfrom).
    unfold run in *. cbn -[step]. rewrite Hrun, calls_step, <- app_assoc.
    eexists. split; [reflexivity|].
    destruct ev as [key fetchFn| |n o]; cbn -[step].
    + destruct (ref_isFetching s key); cbn.
      * split; [lia|]. intros k g Hin. right. by apply Hfrom.
      * split; [lia|]. intros k g [[= -> ->]|Hin]%elem_of_cons; [left|right].
        by apply Hfrom.
    + split; [done|]. intros k g Hin. right. by apply Hfrom.
    + split; [done|]. intros k g Hin. right. by apply Hfrom.
Qed.

(** ** What a refetch handle replays *)

Lemma lookup_record_cache_read s key fetchFn k r :
  valid s →
  lookup_record (cache_read key fetchFn s) k = Some r →
  (k = key ∧ ∃ v, r = success_record key fetchFn v) ∨ lookup_record s k = Some r.
Proof.
  intros Hs. unfold cache_read. repeat case_match; try by right.
  destruct (decide (k = key)) as [->|Hne].
  - rewrite lookup_record_put. intros [= <-]. left. split; [done|]. by eexists.
  - rewrite lookup_record_put_ne by done. by right.
Qed.

Lemma handles_bound_step s ev :
  valid s → handles_bound s → handles_bound (step s ev).
Proof.
  intros Hv [Hrec Hpend]. destruct ev as [key fetchFn| |n o].
  - cbn -[fetchData]. destruct (ref_isFetching s key) eqn:Hf.
    { by rewrite fetchData_suppressed. }
    destruct (fetchData_calls s key fetchFn Hf) as [Hp Hc]. split.
    + intros k r Hr. rewrite Hc. destruct (decide (k = key)) as [->|Hne].
      * rewrite (lookup_record_fetchData _ _ _ Hf) in Hr.
        destruct (queryStore (cache_read key fetchFn s) !! key) as [l|] eqn:Hl.
        -- destruct (heap (cache_read key fetchFn s) !! l) as [r0|] eqn:Hr0; [|done].
           injection Hr as <-. cbn.
           assert (lookup_record (cache_read key fetchFn s) key = Some r0) as Hread
             by (unfold lookup_record; by rewrite Hl).
           apply lookup_record_cache_read in Hread as [[_ [v ->]]|Hold]; [| |done].
           ++ cbn. split; [done|]. apply elem_of_app. right. by left.
           ++ destruct (Hrec _ _ Hold) as [Hk Hin]. split; [done|].
              apply elem_of_app. by left.
        -- injection Hr as <-. cbn. split; [done|]. apply elem_of_app. right. by left.
      * rewrite fetchData_other_keys in Hr by done.
        destruct (Hrec _ _ Hr) as [Hk Hin]. split; [done|]. apply elem_of_app. by left.
    + intros p. rewrite Hp, Hc, !elem_of_app. intros [Hin|Hin]; [left|by right].
      by apply Hpend.
  - by split.
  - cbn -[setQueryStore]. destruct (pending s !! n) as [[key fetchFn]|] eqn:Hn; [|done].
    assert ((key, fetchFn) ∈ calls s) as Hin
      by (by eapply Hpend, list_elem_of_lookup_2).
    assert (∀ p, p ∈ base.delete n (pending s) → p ∈ calls s) as Hpend'
      by (intros p Hp; by eapply Hpend, list_elem_of_delete_inv).
    assert (∀ r0 s0, valid s0 → heap s0 = heap s → queryStore s0 = queryStore s →
              calls s0 = calls s → pending s0 = base.delete n (pending s) →
              refetch r0 = (key, fetchFn) →
              handles_bound (setQueryStore (put_record key r0) s0)) as Hput.
    { intros r0 s0 Hv0 Hh Hq Hc Hp Href. split; [|cbn; by rewrite Hp, Hc].
      intros k r Hr. cbn -[lookup_record]. rewrite Hc.
      destruct (decide (k = key)) as [->|Hne].
      - rewrite lookup_record_put in Hr. injection Hr as <-. by rewrite Href.
      - rewrite lookup_record_put_ne in Hr by done. apply Hrec.
        unfold lookup_record in *. by rewrite <- Hq, <- Hh. }
    destruct o as [W|E]; cbn -[setQueryStore]; apply Hput; try done.
Qed.

Lemma handles_bound_run (cache : option C) evs : handles_bound (run (mount cache) evs).
Proof.
  apply (run_preserves (λ s, valid s ∧ handles_bound s) (λ _, True)).
  - intros s ev _ [Hv Hb]. split; [by apply valid_step | by apply handles_bound_step].
  - by apply Forall_true.
  - split; [by split|]. split; [|done]. intros k r. unfold lookup_record. cbn.
    by rewrite lookup_empty.
Qed.

(** X9. On a provider whose [fetchData] calls were all for keys that name
    nothing in [Object.prototype], the [refetch] handle of every stored
    record is bound to the key the record is stored under and to a producer
    that [fetchFn()] was called with for that key. When [fetchData] finds a
    record for the key it only assigns [isFetching], so the handle stays
    bound to the earlier producer until the new call settles. *)
Theorem refetch_bound_to_key (cache : option C) evs key r :
  Forall ordinary_event evs →
  lookup_record (run (mount cache) evs) key = Some r →
  (∃ fetchFn, refetch r = (key, fetchFn)
              ∧ (key, fetchFn) ∈ calls (run (mount cache) evs))
  ∧ ∀ fetchFn', ref_isFetching (run (mount cache) evs) key = false →
      queryStoreRef (run (mount cache) evs) !! key ≠ None →
      refetch <$> lookup_record (fetchData key fetchFn' (run (mount cache) evs)) key
      = Some (refetch r).
Proof.
  intros _ Hr. split.
  - destruct (handles_bound_run cache evs) as [Hrec _].
    destruct (Hrec _ _ Hr) as [Hk Hin]. exists (refetch r).2.
    destruct (refetch r) as [k f]; cbn in *. by subst.
  - intros fetchFn' Hf Href. rewrite (lookup_record_fetchData _ _ _ Hf).
    assert (cache_read key fetchFn' (run (mount cache) evs) = run (mount cache) evs)
      as ->.
    { unfold cache_read.
      destruct (queryStoreRef (run (mount cache) evs) !! key) as [l|] eqn:Hl; [|done].
      rewrite (get_property_own _ _ _ Hl). by case_match. }
    unfold lookup_record in Hr.
    destruct (queryStore (run (mount cache) evs) !! key) as [l|]; [|done].
    cbn in Hr. by rewrite Hr.
Qed.

(** ** The first fetch on a fresh provider *)

Lemma lookup_record_first_fetch (cache : option C) key fetchFn :
  ordinary key →
  lookup_record (fetchData key fetchFn (mount cache)) key =
    Some match cache with
         | Some c =>
             if decide (cache_get c key = JUndefined)
             then {| status := Loading; data := None; error := None;
                     isFetching := true; refetch := (key, fetchFn) |}
             else {| status := Success; data := Some (cache_get c key);
                     error := None; isFetching := true;
                     refetch := (key, fetchFn) |}
         | None => {| status := Loading; data := None; error := None;
                      isFetching := true; refetch := (key, fetchFn) |}
         end.
Proof.
  intros Hord. rewrite lookup_record_fetchData by done.
  unfold cache_read. cbn -[setQueryStore get_property].
  rewrite (get_property_absent _ _ Hord) by apply lookup_empty.
  destruct cache as [c|]; [|done].
  case_decide; [done|]. cbn. by rewrite lookup_insert_eq.
Qed.

(** X10. For a key that names nothing in [Object.prototype], the first call
    of [fetchData] on a provider that has just mounted calls [fetchFn] once
    and, once rendered, leaves a loading record with [isFetching = true],
    unless a cache is configured and answers a value other than [undefined]
    for the key: then the record is a success record holding the cached
    value, with [isFetching = true]. A cache answering [undefined] counts as
    a miss. *)
Theorem first_fetch (cache : option C) key fetchFn :
  ordinary key →
  lookup_record (commit (fetchData key fetchFn (mount cache))) key =
    Some match cache with
         | Some c =>
             if decide (cache_get c key = JUndefined)
             then {| status := Loading; data := None; error := None;
                     isFetching := true; refetch := (key, fetchFn) |}
             else {| status := Success; data := Some (cache_get c key);
                     error := None; isFetching := true;
                     refetch := (key, fetchFn) |}
         | None => {| status := Loading; data := None; error := None;
                      isFetching := true; refetch := (key, fetchFn) |}
         end
  ∧ calls (fetchData key fetchFn (mount cache)) = [(key, fetchFn)]
  ∧ outstanding (fetchData key fetchFn (mount cache)) key = 1.
Proof.
  intros Hord. split; [by apply lookup_record_first_fetch|].
  destruct (fetchData_calls (mount cache) key fetchFn eq_refl) as [Hp Hc].
  split; [done|]. unfold outstanding. rewrite Hp. cbn. by rewrite decide_True.
Qed.

(** ** One call in flight per key *)

Lemma outstanding_fetchData s key k fetchFn :
  ref_isFetching s k = false →
  outstanding (fetchData k fetchFn s) key
  = outstanding s key + (if decide (k = key) then 1 else 0).
Proof.
  intros Hf. unfold outstanding.
  destruct (fetchData_calls s k fetchFn Hf) as [-> _].
  rewrite filter_app, length_app. cbn. by case_decide.
Qed.

Lemma outstanding_settle s n o key k fetchFn :
  pending s !! n = Some (k, fetchFn) →
  outstanding s key
  = outstanding (step s (Settle n o)) key + (if decide (k = key) then 1 else 0).
Proof.
  intros Hn. unfold outstanding.
  assert (pending (step s (Settle n o)) = base.delete n (pending s)) as ->.
  { cbn -[setQueryStore]. rewrite Hn. by destruct o. }
  rewrite delete_take_drop. rewrite <- (take_drop_middle _ _ _ Hn) at 1.
  rewrite !filter_app, filter_cons, !length_app. cbn.
  case_decide; cbn; lia.
Qed.

Lemma fetchData_record_fetching s key fetchFn :
  valid s → ref_isFetching s key = false →
  ∃ r, lookup_record (fetchData key fetchFn s) key = Some r ∧ isFetching r = true.
Proof.
  intros Hs Hf. rewrite (lookup_record_fetchData _ _ _ Hf).
  destruct (queryStore (cache_read key fetchFn s) !! key) as [l|] eqn:Hl.
  - destruct (valid_cache_read s key fetchFn Hs) as (Hst & _ & _).
    pose proof (Hst _ _ Hl) as Hlt. apply lookup_lt_is_Some_2 in Hlt as [r Hr].
    rewrite Hr. by eexists.
  - by eexists.
Qed.

Lemma fetching_in_store_fetchData s k fetchFn :
  valid s → one_in_flight s → fetching_in_store (fetchData k fetchFn s).
Proof.
  intros Hv [Hst Href]. destruct (ref_isFetching s k) eqn:Hf.
  { by rewrite fetchData_suppressed. }
  intros key. rewrite (outstanding_fetchData _ _ _ _ Hf).
  destruct (Hst key) as [Hle Hrec]. case_decide as Hk.
  - subst k. assert (outstanding s key = 0) as ->.
    { destruct (decide (outstanding s key = 1)) as [H1|H1]; [|lia].
      apply Href in H1. congruence. }
    split; [done|]. intros _. by apply fetchData_record_fetching.
  - rewrite Nat.add_0_r. split; [done|]. intros H1.
    rewrite fetchData_other_keys; [by apply Hrec | done | by intros ->].
Qed.

Lemma one_in_flight_commit s : fetching_in_store s → one_in_flight (commit s).
Proof.
  intros Hst. split; [exact Hst|]. intros key H1.
  destruct (Hst key) as [_ Hrec]. destruct (Hrec H1) as (r & Hr & Hfetch).
  unfold ref_isFetching, ref_record. cbn. unfold lookup_record in Hr.
  by rewrite Hr.
Qed.

Lemma one_in_flight_settle s n o :
  valid s → one_in_flight s → one_in_flight (step s (Settle n o)).
Proof.
  intros Hv [Hst Href].
  destruct (pending s !! n) as [[k fetchFn]|] eqn:Hn;
    [|by (cbn -[setQueryStore]; rewrite Hn)].
  assert (∀ key, key ≠ k →
            outstanding (step s (Settle n o)) key = outstanding s key) as Hsame.
  { intros key Hne. rewrite (outstanding_settle s n o key k fetchFn Hn).
    rewrite decide_False by done. lia. }
  assert (outstanding (step s (Settle n o)) k = 0) as Hzero.
  { pose proof (outstanding_settle s n o k k fetchFn Hn) as Hk.
    rewrite decide_True in Hk by done. destruct (Hst k) as [Hle _]. lia. }
  split.
  - intros key. destruct (decide (key = k)) as [->|Hne].
    + rewrite Hzero. split; [lia | done].
    + rewrite Hsame by done. destruct (Hst key) as [Hle Hrec]. split; [done|].
      intros H1. rewrite (settle_other_keys s n k key fetchFn o); auto.
  - intros key. destruct (decide (key = k)) as [->|Hne].
    + by rewrite Hzero.
    + rewrite Hsame by done. intros H1. unfold ref_isFetching.
      rewrite ref_record_settle by done. by apply Href.
Qed.

Lemma one_in_flight_step_rendered s ev :
  valid s ∧ one_in_flight s →
  valid (step_rendered s ev) ∧ one_in_flight (step_rendered s ev).
Proof.
  intros [Hv Hone]. destruct ev as [k fetchFn| |n o]; cbn -[fetchData step].
  - split.
    + apply (valid_step _ Commit), (valid_step _ (Invoke k fetchFn)), Hv.
    + by apply one_in_flight_commit, fetching_in_store_fetchData.
  - split; [by apply (valid_step _ Commit)|].
    apply one_in_flight_commit, Hone.
  - split; [by apply valid_step | by apply one_in_flight_settle].
Qed.

(** X11. On a provider whose [fetchData] calls are all for keys that name
    nothing in [Object.prototype]: when a render commits after every call
    of [fetchData], at most one [fetchFn] call is outstanding for each key
    at any time, whatever the calls, renders and settlings are, and the
    record of a key with an outstanding call is marked as fetching. *)
Theorem one_outstanding_when_rendered (cache : option C) evs key :
  Forall ordinary_event evs →
  (outstanding (run_rendered (mount cache) evs) key ≤ 1)%nat
  ∧ (outstanding (run_rendered (mount cache) evs) key = 1 →
     ∃ r, lookup_record (run_rendered (mount cache) evs) key = Some r
          ∧ isFetching r = true).
Proof.
  intros _.
  assert (∀ s, valid s ∧ one_in_flight s →
            valid (run_rendered s evs) ∧ one_in_flight (run_rendered s evs)) as Hrun.
  { induction evs as [|ev evs IH]; intros s Hs; [done|].
    apply IH, one_in_flight_step_rendered, Hs. }
  destruct (Hrun (mount cache)) as [_ [Hst _]]; [|apply Hst].
  split; [by split|]. split; [|done]. intros k. split; [cbn; lia | done].
Qed.

(** ** The hook's effect *)

(** The effect does not fire on a record a provider can come to hold. *)
Lemma stored_record_not_refetched (cache : option C) evs key r :
  lookup_record (run (mount cache) evs) key = Some r →
  bool_decide (status r = Idle)
  || (bool_decide (status r = Loading) && negb (isFetching r)) = false.
Proof.
  intros Hr.
  destruct (heap_Forall_run
    (λ r, status r ≠ Idle ∧ (status r = Loading → isFetching r = true))
    cache evs) with (key := key) (r := r) as [Hidle Hload];
    [by intros ? [? ?] | done | done | done | done |].
  rewrite bool_decide_eq_false_2 by done. cbn.
  destruct (decide (status r = Loading)) as [Hl|Hl].
  - rewrite (Hload Hl). by rewrite andb_false_r.
  - by rewrite bool_decide_eq_false_2.
Qed.

(** X16. The effect of [useQuery] acts on what its render read at
    [queryStore[key]]. If that was a record object of the provider, or a
    member inherited from [Object.prototype], running the effect changes
    nothing and calls no [fetchFn], however often it runs: the hook never
    refetches by itself, not after a failure either. If it was [undefined],
    every run of the effect calls [fetchData]; on a provider that just
    mounted, for a key that names nothing in [Object.prototype], two runs
    of the effect with no render in between (the mount effect run twice)
    call [fetchFn] twice. *)
Theorem useQuery_effect_from_render (cache : option C) evs key fetchFn :
  (∀ l r, heap (run (mount cache) evs) !! l = Some r →
     useQuery_effect (Own l) key fetchFn (run (mount cache) evs)
     = run (mount cache) evs)
  ∧ (∀ member,
       useQuery_effect (Inherited member) key fetchFn (run (mount cache) evs)
       = run (mount cache) evs)
  ∧ useQuery_effect Absent key fetchFn (run (mount cache) evs)
    = fetchData key fetchFn (run (mount cache) evs)
  ∧ (ordinary key →
     calls (useQuery_effect Absent key fetchFn
              (useQuery_effect Absent key fetchFn (mount cache)))
     = [(key, fetchFn); (key, fetchFn)]).
Proof.
  split; [|split; [done|split; [done|]]].
  - intros l r Hr. unfold useQuery_effect. rewrite Hr.
    assert (Forall (λ r, status r ≠ Idle ∧ (status r = Loading → isFetching r = true))
              (heap (run (mount cache) evs))) as Hall.
    { apply (run_preserves
               (λ s, Forall (λ r, status r ≠ Idle
                                  ∧ (status r = Loading → isFetching r = true))
                       (heap s)) (λ _, True)).
      - intros s ev _. by apply heap_Forall_step; [intros ? [? ?]|..].
      - by apply Forall_true.
      - constructor. }
    destruct (Forall_lookup_1 _ _ _ _ Hall Hr) as [Hidle Hload].
    rewrite bool_decide_eq_false_2 by done. cbn.
    destruct (decide (status r = Loading)) as [Hl|Hl].
    + rewrite (Hload Hl). by rewrite andb_false_r.
    + by rewrite bool_decide_eq_false_2.
  - intros _. unfold useQuery_effect. cbn -[fetchData].
    set (s1 := fetchData key fetchFn (mount cache)).
    assert (ref_isFetching (mount cache) key = false) as Hf0
      by (by apply ref_isFetching_absent).
    destruct (fetchData_calls _ key fetchFn Hf0) as [_ Hc1]. fold s1 in Hc1.
    assert (ref_isFetching s1 key = false) as Hf1.
    { apply ref_isFetching_absent. unfold s1. by rewrite queryStoreRef_fetchData. }
    destruct (fetchData_calls _ key fetchFn Hf1) as [_ Hc2].
    by rewrite Hc2, Hc1.
Qed.

(** ** What reaches the cache *)

(** X17. The provider writes to the cache in one place only: when a
    suspended call resolves, with [set] for the key of that call. Calls of
    [fetchData] (the cache-read step only reads), renders, failing calls and
    settlings that match no suspended call leave the cache as it was;
    [delete] is never called. *)
Theorem cache_written_only_on_resolve s ev :
  cache (step s ev) =
    match ev with
    | Settle n (Resolved W) =>
        match pending s !! n with
        | Some (key, _) => (λ c, cache_set c key W) <$> cache s
        | None => cache s
        end
    | _ => cache s
    end.
Proof.
  destruct ev as [key fetchFn| |n [W|E]]; cbn -[fetchData setQueryStore].
  - unfold fetchData. destruct (ref_isFetching s key); [done|].
    cbn. apply cache_cache_read.
  - done.
  - by destruct (pending s !! n) as [[key fetchFn]|].
  - by destruct (pending s !! n) as [[key fetchFn]|].
Qed.

(** ** The claims that fail on inherited names, on ordinary keys *)

(** X20. For a key that names nothing in [Object.prototype]: with a cache
    configured, no record for the key in the ref and [cache.get(key)] other
    than [undefined], [fetchData] first publishes a success record holding
    the cached value, not fetching; when it suspends on [fetchFn()] the
    record still holds that value and is fetching; [fetchFn] has been
    called; and the value the call resolves with replaces the cached one. *)
Theorem fetchData_cache_hit s key fetchFn (c : C) :
  ordinary key →
  cache s = Some c →
  queryStoreRef s !! key = None →
  cache_get c key ≠ JUndefined →
  lookup_record (cache_read key fetchFn s) key
    = Some {| status := Success; data := Some (cache_get c key); error := None;
              isFetching := false; refetch := (key, fetchFn) |}
  ∧ lookup_record (fetchData key fetchFn s) key
    = Some {| status := Success; data := Some (cache_get c key); error := None;
              isFetching := true; refetch := (key, fetchFn) |}
  ∧ calls (fetchData key fetchFn s) = calls s ++ [(key, fetchFn)]
  ∧ pending (fetchData key fetchFn s) = pending s ++ [(key, fetchFn)]
  ∧ ∀ W, lookup_record
           (step (fetchData key fetchFn s) (Settle (length (pending s)) (Resolved W)))
           key
         = Some {| status := Success; data := Some W; error := None;
                   isFetching := false; refetch := (key, fetchFn) |}.
Proof.
  intros Hord Hc Href Hdef.
  pose proof (ref_isFetching_absent s key Href) as Hf.
  destruct (fetchData_calls s key fetchFn Hf) as [Hp Hcalls].
  assert (lookup_record (cache_read key fetchFn s) key
          = Some (success_record key fetchFn (cache_get c key))) as Hpub.
  { rewrite (cache_read_hit _ _ _ _ Hord Hc Href Hdef). apply lookup_record_put. }
  split; [done|]. split.
  - rewrite (lookup_record_fetchData _ _ _ Hf). unfold lookup_record in Hpub.
    destruct (queryStore (cache_read key fetchFn s) !! key) as [l|]; [|done].
    cbn in Hpub. by rewrite Hpub.
  - split; [done|]. split; [done|]. intros W.
    erewrite step_settle_resolved; [apply lookup_record_put|].
    rewrite Hp. by apply list_lookup_middle.
Qed.

(** X21. On a provider whose [fetchData] calls were all for keys that name
    nothing in [Object.prototype], for such a key that no event of the run
    passed to [fetchData]: the hook returns the default record, with status
    idle, not fetching, no data or error, and [refetch] bound to the hook's
    own arguments, and its effect will start the first fetch. *)
Theorem useQuery_default_state (cache : option C) evs key fetchFn :
  ordinary key →
  Forall ordinary_event evs →
  Forall (not_invoke key) evs →
  useQuery (Some (commit (run (mount cache) evs))) key fetchFn
    = Normal (Returned {| status := Idle; data := None; error := None;
                          isFetching := false; refetch := (key, fetchFn) |},
              true).
Proof.
  intros Hord _ Hevs.
  destruct (untouched_run cache evs key Hevs) as (Hst & _ & _).
  unfold useQuery, lookup_record. cbn. rewrite Hst. cbn.
  by rewrite (get_property_absent _ _ Hord Hst).
Qed.

End MoreFacts.

(** ** The in-memory plugin behind the provider *)

(** X12. With the in-memory plugin and a key that names nothing in
    [Object.prototype], what a call resolved with is what the next provider
    mounted over the same cache starts from: its first [fetchData] for the
    key, once rendered, leaves a success record holding that value with
    [isFetching = true]; a call that resolved with [undefined] leaves the
    next provider with a loading record, as if nothing had been cached. *)
Theorem write_through_feeds_next_mount
    (s : engine InMemoryCache.t) n key fetchFn (W : jsval) (c : InMemoryCache.t) :
  ordinary key →
  pending s !! n = Some (key, fetchFn) →
  cache s = Some c →
  ∃ c', cache (step s (Settle n (Resolved W))) = Some c'
        ∧ ∀ fetchFn',
            lookup_record (commit (fetchData key fetchFn' (mount (Some c')))) key
            = Some (if decide (W = JUndefined)
                    then {| status := Loading; data := None; error := None;
                            isFetching := true; refetch := (key, fetchFn') |}
                    else {| status := Success; data := Some W; error := None;
                            isFetching := true; refetch := (key, fetchFn') |}).
Proof.
  intros Hord Hn Hc. exists (InMemoryCache.set c key W). split.
  - rewrite (step_settle_resolved _ _ _ _ _ Hn). cbn. by rewrite Hc.
  - intros fetchFn'.
    change (lookup_record (commit ?s) key) with (lookup_record s key).
    rewrite (lookup_record_first_fetch _ _ _ Hord).
    cbn. unfold InMemoryCache.get, InMemoryCache.set. cbn.
    by rewrite lookup_insert_eq.
Qed.

(** X13. The in-memory plugin keeps one value per key: a second [set]
    replaces the first, [delete] after [set] or after [delete] is one
    [delete], deleting a key the map does not hold changes nothing, and
    through [get] a key set to [undefined] cannot be told from a deleted
    one. *)
Theorem InMemoryCache_overwrite_and_delete (c : InMemoryCache.t) (k : string) (v w : jsval) :
  InMemoryCache.set (InMemoryCache.set c k v) k w = InMemoryCache.set c k w
  ∧ InMemoryCache.delete (InMemoryCache.set c k v) k = InMemoryCache.delete c k
  ∧ InMemoryCache.delete (InMemoryCache.delete c k) k = InMemoryCache.delete c k
  ∧ (InMemoryCache.store c !! k = None → InMemoryCache.delete c k = c)
  ∧ ∀ k', InMemoryCache.get (InMemoryCache.set c k JUndefined) k'
          = InMemoryCache.get (InMemoryCache.delete c k) k'.
Proof.
  destruct c as [m]. unfold InMemoryCache.set, InMemoryCache.delete, InMemoryCache.get.
  cbn. split; [by rewrite insert_insert_eq|]. split; [by rewrite delete_insert_eq|].
  split; [by rewrite delete_delete_eq|]. split.
  - intros Hk. by rewrite delete_id.
  - intros k'. destruct (decide (k = k')) as [->|Hne].
    + by rewrite lookup_insert_eq, lookup_delete_eq.
    + by rewrite lookup_insert_ne, lookup_delete_ne.
Qed.

(** ** The plugin loader *)

Section LoaderFacts.
Context {I : Type}.
Implicit Types (modules : list (string * option (CachePluginLoader.CachePluginConstructor I))).

Lemma registrable_snoc modules entry :
  CachePluginLoader.registrable (modules ++ [entry]) =
    CachePluginLoader.registrable modules
    ++ (if CachePluginLoader.endsWith entry.1 "index.ts" then []
        else match entry.2 with Some Plugin => [Plugin] | None => [] end).
Proof.
  unfold CachePluginLoader.registrable. rewrite omap_app. cbn.
  destruct (CachePluginLoader.endsWith entry.1 "index.ts"); [done|].
  by destruct entry.2.
Qed.

(** The registry holds, under each name, the last registrable class of that
    name. *)
Lemma cachePlugins_lookup modules pluginName :
  CachePluginLoader.cachePlugins modules !! pluginName =
    last (filter (λ Plugin, CachePluginLoader.name Plugin = pluginName)
            (CachePluginLoader.registrable modules)).
Proof.
  induction modules as [|entry modules IH] using rev_ind; [done|].
  rewrite registrable_snoc. unfold CachePluginLoader.cachePlugins in *.
  rewrite foldl_app. cbn. unfold CachePluginLoader.register at 1.
  destruct (CachePluginLoader.endsWith entry.1 "index.ts").
  { by rewrite app_nil_r. }
  destruct entry.2 as [Plugin|]; [|by rewrite app_nil_r].
  rewrite filter_app, filter_cons, filter_nil.
  destruct (decide (CachePluginLoader.name Plugin = pluginName)) as [Heq|Hne].
  - rewrite last_snoc. subst pluginName. by rewrite lookup_insert_eq.
  - rewrite app_nil_r. by rewrite lookup_insert_ne.
Qed.

(** X14. When the classes the loop registers and the name asked for name
    nothing in [Object.prototype]: [createCachePlugin(name)] builds an
    instance of the last module, in the order the loop visits them, whose
    path does not end in [index.ts], that has a default export, and whose
    class is called [name]; with no such module it answers [undefined]. So
    a module the loop registers last under its class name is the one
    [createCachePlugin] instantiates, and a later class of the same name
    replaces an earlier one. *)
Theorem createCachePlugin_last_registered modules pluginName :
  ordinary pluginName →
  Forall (λ Plugin, ordinary (CachePluginLoader.name Plugin))
    (CachePluginLoader.registrable modules) →
  CachePluginLoader.createCachePlugin modules pluginName =
    Normal ((λ Plugin, CachePluginLoader.Instance (CachePluginLoader.construct Plugin))
              <$> last (filter (λ Plugin, CachePluginLoader.name Plugin = pluginName)
                          (CachePluginLoader.registrable modules)))
  ∧ ∀ path Plugin,
      CachePluginLoader.endsWith path "index.ts" = false →
      ordinary (CachePluginLoader.name Plugin) →
      CachePluginLoader.createCachePlugin (modules ++ [(path, Some Plugin)])
        (CachePluginLoader.name Plugin)
      = Normal (Some (CachePluginLoader.Instance (CachePluginLoader.construct Plugin))).
Proof.
  intros Hord _. unfold CachePluginLoader.createCachePlugin, get_property. split.
  - rewrite cachePlugins_lookup.
    destruct (last _) as [Plugin|]; [done|]. by rewrite decide_True.
  - intros path Plugin Hpath _. rewrite cachePlugins_lookup, registrable_snoc.
    cbn. rewrite Hpath, filter_app, filter_cons_True by done.
    by rewrite filter_nil, last_snoc.
Qed.

(** X15. When every module either has a path ending in [index.ts] or has no
    default export, the loop registers nothing: the registry has no
    property of its own and [createCachePlugin] answers [undefined] for
    every name that names nothing in [Object.prototype]. *)
Theorem createCachePlugin_nothing_registered modules :
  (∀ path dflt, (path, dflt) ∈ modules →
     CachePluginLoader.endsWith path "index.ts" = true ∨ dflt = None) →
  CachePluginLoader.cachePlugins modules = ∅
  ∧ ∀ pluginName, ordinary pluginName →
      CachePluginLoader.createCachePlugin modules pluginName = Normal None.
Proof.
  intros Hall.
  assert (CachePluginLoader.registrable modules = []) as Hnone.
  { induction modules as [|[path dflt] modules IH]; [done|].
    unfold CachePluginLoader.registrable in *. cbn.
    rewrite IH by (intros p d Hin; apply Hall; by right).
    destruct (Hall path dflt) as [-> | ->]; [by left|done|].
    by destruct (CachePluginLoader.endsWith path "index.ts"). }
  assert (∀ pluginName, CachePluginLoader.cachePlugins modules !! pluginName = None)
    as Hlookup.
  { intros pluginName. by rewrite cachePlugins_lookup, Hnone. }
  split.
  - apply map_eq. intros pluginName. by rewrite Hlookup, lookup_empty.
  - intros pluginName Hord. unfold CachePluginLoader.createCachePlugin.
    by rewrite (get_property_absent _ _ Hord (Hlookup pluginName)).
Qed.

(** X19. Asked for a name of [Object.prototype] that no registered class
    bears, [createCachePlugin] does not answer [undefined]: the registry
    answers the inherited member, so for ["constructor"] the result is a new
    empty object, which is no cache plugin, and for every other such name
    [new] throws a [TypeError]. *)
Theorem createCachePlugin_inherited_names modules :
  Forall (λ Plugin, ordinary (CachePluginLoader.name Plugin))
    (CachePluginLoader.registrable modules) →
  CachePluginLoader.createCachePlugin modules "constructor"
  = Normal (Some CachePluginLoader.EmptyObject)
  ∧ ∀ member, member ∈ Object_prototype_names → member ≠ "constructor" →
      CachePluginLoader.createCachePlugin modules member
      = Throw CachePluginLoader.not_a_constructor.
Proof.
  intros Hnames.
  assert (∀ member, member ∈ Object_prototype_names →
            get_property (CachePluginLoader.cachePlugins modules) member
            = Inherited member) as Hget.
  { intros member Hin. apply get_property_inherited; [done|].
    rewrite cachePlugins_lookup.
    destruct (last _) as [Plugin|] eqn:Hlast; [|done]. exfalso.
    apply last_Some_elem_of, list_elem_of_filter in Hlast as [Hname HP].
    rewrite Forall_forall in Hnames. apply (Hnames _ HP). by rewrite Hname. }
  unfold CachePluginLoader.createCachePlugin. split.
  - rewrite Hget; [done|]. by_decision.
  - intros member Hin Hne. rewrite (Hget _ Hin). by rewrite decide_False.
Qed.

(** *** Which paths the loop skips *)

Lemma length_append (p t : string) :
  String.length (p +:+ t) = (String.length p + String.length t)%nat.
Proof. induction p as [|a p IH]; simpl; [done | by f_equal]. Qed.

Lemma substring_whole (t : string) : String.substring 0 (String.length t) t = t.
Proof. induction t as [|a t IH]; simpl; [done | by f_equal]. Qed.

Lemma substring_after (p t : string) :
  String.substring (String.length p) (String.length t) (p +:+ t) = t.
Proof. induction p as [|a p IH]; simpl; [apply substring_whole | exact IH]. Qed.

Lemma substring_split (n : nat) : ∀ (s : string) (m : nat),
  String.length s = (n + m)%nat →
  s = String.substring 0 n s +:+ String.substring n m s.
Proof.
  induction n as [|n IH]; intros s m Hlen; cbn in *.
  - subst m. rewrite substring_whole. by destruct s.
  - destruct s as [|a s]; [done|]. simpl in *.
    change (String a s = String a (String.substring 0 n s +:+ String.substring n m s)).
    f_equal. apply IH. lia.
Qed.

(** [endsWith] is the suffix test. *)
Lemma endsWith_suffix (s search : string) :
  CachePluginLoader.endsWith s search = true ↔ ∃ p, s = p +:+ search.
Proof.
  unfold CachePluginLoader.endsWith. cbn zeta. split.
  - case_decide as Hle; [|done]. intros Heq%bool_decide_eq_true.
    exists (String.substring 0 (String.length s - String.length search) s).
    pose proof (substring_split (String.length s - String.length search) s
                  (String.length search)) as Hsplit.
    rewrite Heq in Hsplit. apply Hsplit. lia.
  - intros [p ->]. rewrite length_append.
    rewrite decide_True by lia. apply bool_decide_eq_true.
    replace (String.length p + String.length search - String.length search)%nat
      with (String.length p) by lia.
    apply substring_after.
Qed.

(** X18. The loop skips a module exactly by the end of its path: whatever
    precedes [index.ts] in the path, and whatever the module exports, the
    registry and [createCachePlugin] are as if the module were not there. *)
Theorem index_suffix_is_skipped modules modules' (prefix : string)
    (dflt : option (CachePluginLoader.CachePluginConstructor I)) pluginName :
  CachePluginLoader.createCachePlugin
    (modules ++ (prefix +:+ "index.ts", dflt) :: modules') pluginName
  = CachePluginLoader.createCachePlugin (modules ++ modules') pluginName.
Proof.
  assert (CachePluginLoader.endsWith (prefix +:+ "index.ts") "index.ts" = true)
    as Hskip by (apply endsWith_suffix; by eexists).
  unfold CachePluginLoader.createCachePlugin, get_property.
  rewrite !cachePlugins_lookup.
  unfold CachePluginLoader.registrable. rewrite !omap_app. cbn -[String.append].
  by rewrite Hskip.
Qed.

End LoaderFacts.

(** * The further properties at work *)

(** The loaded provider has no cache: both providers refetch alike. *)
Lemma fetchData_without_cache_witness :
  cache users_loaded = None
  ∧ fetchData "users" 2 users_loaded = fetchData_plain "users" 2 users_loaded.
Proof.
  split; [reflexivity|].
  apply (fetchData_without_cache users_loaded "users" 2 (Resolved JNull) eq_refl).
Defined.

(** The hook reading the loaded key gets its success record and asks for no
    fetch. *)
Lemma useQuery_fires_iff_absent_witness :
  ordinary "users"
  ∧ Forall ordinary_event
      [Invoke "users" 1; Commit; Settle 0 (Resolved (JStr "alice")); Commit]
  ∧ useQuery (Some (commit users_loaded)) "users" 7
    = Normal (Returned {| status := Success; data := Some (JStr "alice");
                          error := None; isFetching := false;
                          refetch := ("users", 1) |}, false).
Proof.
  assert (ordinary "users") as Hord by by_decision.
  assert (Forall ordinary_event
            [Invoke "users" 1; Commit; Settle 0 (Resolved (JStr "alice")); Commit])
    as Hevs by ordinary_events.
  split; [exact Hord|]. split; [exact Hevs|].
  assert (lookup_record
            (commit (run (mount (@None InMemoryCache.t))
               [Invoke "users" 1; Commit; Settle 0 (Resolved (JStr "alice")); Commit]))
            "users"
          = Some {| status := Success; data := Some (JStr "alice"); error := None;
                    isFetching := false; refetch := ("users", 1) |}) as Hr
    by reflexivity.
  destruct (useQuery_fires_iff_absent (@None InMemoryCache.t) _ "users" 7 Hord Hevs)
    as (q & fires & Hq & Hfires & _ & Hrec).
  destruct (Hrec _ Hr) as [-> _].
  destruct fires; [|exact Hq].
  rewrite Hr in Hfires. by destruct (proj1 Hfires eq_refl).
Defined.

(** The key fetched at the start of the run has a record at its end. *)
Lemma fetched_key_has_record_witness :
  Forall ordinary_event
    [Invoke "users" 1; Commit; Settle 0 (Resolved (JStr "alice")); Commit]
  ∧ Invoke "users" 1
      ∈ [Invoke "users" 1; Commit; Settle 0 (Resolved (JStr "alice")); Commit]
  ∧ is_Some (lookup_record (commit users_loaded) "users").
Proof.
  assert (Forall ordinary_event
            [Invoke "users" 1; Commit; Settle 0 (Resolved (JStr "alice")); Commit])
    as Hevs by ordinary_events.
  assert (Invoke "users" 1
            ∈ [Invoke "users" 1; Commit; Settle 0 (Resolved (JStr "alice")); Commit])
    as Hin by constructor.
  split; [exact Hevs|]. split; [exact Hin|].
  exact (fetched_key_has_record None _ "users" 1 Hevs Hin).
Defined.

(** The record of the key in flight is still there once the call failed. *)
Lemma record_never_removed_witness :
  Forall ordinary_event ([Invoke "users" 1; Commit] ++ [Settle 0 (Rejected JNull)])
  ∧ is_Some (lookup_record (commit users_in_flight) "users")
  ∧ is_Some (lookup_record
               (commit (run (mount (Some InMemoryCache.new))
                          ([Invoke "users" 1; Commit] ++ [Settle 0 (Rejected JNull)])))
               "users").
Proof.
  assert (Forall ordinary_event
            ([Invoke "users" 1; Commit] ++ [Settle 0 (Rejected JNull)])) as Hevs
    by (simpl app; ordinary_events).
  assert (is_Some (lookup_record
                     (commit (run (mount (Some InMemoryCache.new))
                                [Invoke "users" 1; Commit])) "users")) as Hk
    by (by eexists).
  split; [exact Hevs|]. split; [exact Hk|].
  exact (record_never_removed (Some InMemoryCache.new) [Invoke "users" 1; Commit]
           [Settle 0 (Rejected JNull)] "users" Hevs Hk).
Defined.

(** Fetching ["posts"] leaves the record of ["users"] as it was. *)
Lemma other_keys_unchanged_witness :
  Forall ordinary_event
    [Invoke "users" 1; Commit; Settle 0 (Resolved (JStr "alice")); Commit]
  ∧ ordinary "posts"
  ∧ lookup_record (fetchData "posts" 2 users_loaded) "users"
    = Some {| status := Success; data := Some (JStr "alice"); error := None;
              isFetching := false; refetch := ("users", 1) |}.
Proof.
  assert (Forall ordinary_event
            [Invoke "users" 1; Commit; Settle 0 (Resolved (JStr "alice")); Commit])
    as Hevs by ordinary_events.
  assert (ordinary "posts") as Hord by by_decision.
  split; [exact Hevs|]. split; [exact Hord|].
  destruct (other_keys_unchanged (@None InMemoryCache.t) _ "users" Hevs)
    as (_ & Hfetch & _).
  unfold users_loaded. rewrite (Hfetch "posts" 2 Hord); [reflexivity | discriminate].
Defined.

(** The call in flight settles; a refetch before the next render is lost. *)
Lemma refetch_suppressed_until_commit_witness :
  Forall ordinary_event [Invoke "users" 1]
  ∧ pending (commit (run (mount (Some InMemoryCache.new)) [Invoke "users" 1])) !! 0
    = Some ("users", 1)
  ∧ ref_isFetching (commit (run (mount (Some InMemoryCache.new)) [Invoke "users" 1]))
      "users" = true
  ∧ calls (fetchData "users" 2
             (step (commit (run (mount (Some InMemoryCache.new)) [Invoke "users" 1]))
                (Settle 0 (Resolved (JNum 42)))))
    = [("users", 1)].
Proof.
  assert (Forall ordinary_event [Invoke "users" 1]) as Hevs by ordinary_events.
  assert (pending (commit (run (mount (Some InMemoryCache.new)) [Invoke "users" 1]))
            !! 0 = Some ("users", 1)) as Hn by reflexivity.
  assert (ref_isFetching
            (commit (run (mount (Some InMemoryCache.new)) [Invoke "users" 1])) "users"
          = true) as Hf by reflexivity.
  split; [exact Hevs|]. split; [exact Hn|]. split; [exact Hf|].
  destruct (refetch_suppressed_until_commit (Some InMemoryCache.new)
              [Invoke "users" 1] 0 (Resolved (JNum 42)) "users" 1 2 Hevs Hn Hf)
    as (_ & _ & Hcalls).
  rewrite Hcalls. reflexivity.
Defined.

(** Two more calls and a render while the first call is in flight. *)
Lemma in_flight_blocks_invokes_witness :
  Forall (invoke_or_commit "users") [Invoke "users" 2; Commit; Invoke "users" 3]
  ∧ run (commit (fetchData "users" 1 (mount (@None InMemoryCache.t))))
      [Invoke "users" 2; Commit; Invoke "users" 3]
    = commit (fetchData "users" 1 (mount None)).
Proof.
  assert (Forall (invoke_or_commit "users")
            [Invoke "users" 2; Commit; Invoke "users" 3]) as Hevs
    by (repeat constructor).
  split; [exact Hevs|].
  exact (in_flight_blocks_invokes None [] "users" 1 _ eq_refl Hevs).
Defined.

(** The loaded record's handle is bound to ["users"] and producer 1. *)
Lemma refetch_bound_to_key_witness :
  Forall ordinary_event
    [Invoke "users" 1; Commit; Settle 0 (Resolved (JStr "alice")); Commit]
  ∧ lookup_record users_loaded "users"
    = Some {| status := Success; data := Some (JStr "alice"); error := None;
              isFetching := false; refetch := ("users", 1) |}
  ∧ ("users", 1) ∈ calls users_loaded.
Proof.
  assert (Forall ordinary_event
            [Invoke "users" 1; Commit; Settle 0 (Resolved (JStr "alice")); Commit])
    as Hevs by ordinary_events.
  assert (lookup_record
            (run (mount (@None InMemoryCache.t))
               [Invoke "users" 1; Commit; Settle 0 (Resolved (JStr "alice")); Commit])
            "users"
          = Some {| status := Success; data := Some (JStr "alice"); error := None;
                    isFetching := false; refetch := ("users", 1) |}) as Hr
    by reflexivity.
  split; [exact Hevs|]. split; [exact Hr|].
  destruct (refetch_bound_to_key None _ "users" _ Hevs Hr) as [(f & Hf & Hin) _].
  cbn in Hf. injection Hf as <-. exact Hin.
Defined.

(** The first fetch of ["users"] over a cache that holds it. *)
Lemma first_fetch_witness :
  ordinary "users"
  ∧ lookup_record (commit (fetchData "users" 1 (mount (Some users_cached)))) "users"
    = Some {| status := Success; data := Some (JStr "cached"); error := None;
              isFetching := true; refetch := ("users", 1) |}.
Proof.
  assert (ordinary "users") as Hord by by_decision.
  split; [exact Hord|].
  destruct (first_fetch (Some users_cached) "users" 1 Hord) as [Hrec _].
  rewrite Hrec. reflexivity.
Defined.

(** Three calls for one key, each followed by a render: one is outstanding. *)
Lemma one_outstanding_when_rendered_witness :
  Forall ordinary_event [Invoke "users" 1; Invoke "users" 2; Invoke "users" 3]
  ∧ (outstanding
       (run_rendered (mount (@None InMemoryCache.t))
          [Invoke "users" 1; Invoke "users" 2; Invoke "users" 3]) "users" ≤ 1)%nat.
Proof.
  assert (Forall ordinary_event [Invoke "users" 1; Invoke "users" 2; Invoke "users" 3])
    as Hevs by ordinary_events.
  split; [exact Hevs|].
  apply (one_outstanding_when_rendered (@None InMemoryCache.t) _ "users" Hevs).
Defined.

(** The value the call in flight resolves with greets the next provider. *)
Lemma write_through_feeds_next_mount_witness :
  ordinary "users"
  ∧ pending users_in_flight !! 0 = Some ("users", 1)
  ∧ cache users_in_flight = Some InMemoryCache.new
  ∧ ∃ c', cache (step users_in_flight (Settle 0 (Resolved (JNum 42)))) = Some c'
          ∧ lookup_record (commit (fetchData "users" 5 (mount (Some c')))) "users"
            = Some {| status := Success; data := Some (JNum 42); error := None;
                      isFetching := true; refetch := ("users", 5) |}.
Proof.
  assert (ordinary "users") as Hord by by_decision.
  assert (pending users_in_flight !! 0 = Some ("users", 1)) as Hn by reflexivity.
  assert (cache users_in_flight = Some InMemoryCache.new) as Hc by reflexivity.
  split; [exact Hord|]. split; [exact Hn|]. split; [exact Hc|].
  destruct (write_through_feeds_next_mount users_in_flight 0 "users" 1 (JNum 42)
              InMemoryCache.new Hord Hn Hc) as (c' & Hc' & Hnext).
  exists c'. split; [exact Hc'|]. exact (Hnext 5).
Defined.

(** The directory with a default export: its class is created by name. *)
Lemma createCachePlugin_last_registered_witness :
  ordinary "RedisCache"
  ∧ Forall (λ Plugin, ordinary (CachePluginLoader.name Plugin))
      (CachePluginLoader.registrable plugin_directory_with_default)
  ∧ CachePluginLoader.createCachePlugin plugin_directory_with_default "RedisCache"
    = Normal (Some (CachePluginLoader.Instance users_cached)).
Proof.
  assert (ordinary "RedisCache") as Hord by by_decision.
  assert (Forall (λ Plugin, ordinary (CachePluginLoader.name Plugin))
            (CachePluginLoader.registrable plugin_directory_with_default)) as Hnames
    by (repeat constructor; by_decision).
  split; [exact Hord|]. split; [exact Hnames|].
  destruct (createCachePlugin_last_registered plugin_directory_with_default
              "RedisCache" Hord Hnames) as [Hcreate _].
  rewrite Hcreate. reflexivity.
Defined.

(** The plugin directory registers nothing, so no plugin is created. *)
Lemma createCachePlugin_nothing_registered_witness :
  (∀ path dflt, (path, dflt) ∈ plugin_directory →
     CachePluginLoader.endsWith path "index.ts" = true ∨ dflt = None)
  ∧ ordinary "InMemoryCache"
  ∧ CachePluginLoader.createCachePlugin plugin_directory "InMemoryCache"
    = Normal None.
Proof.
  assert (∀ path dflt, (path, dflt) ∈ plugin_directory →
            CachePluginLoader.endsWith path "index.ts" = true ∨ dflt = None) as Hall.
  { intros path dflt Hin. unfold plugin_directory in Hin.
    apply elem_of_cons in Hin as [[= -> ->]|Hin]; [by left|].
    apply list_elem_of_singleton in Hin as [= -> ->]. by right. }
  assert (ordinary "InMemoryCache") as Hord by by_decision.
  split; [exact Hall|]. split; [exact Hord|].
  destruct (createCachePlugin_nothing_registered plugin_directory Hall) as [_ Hnone].
  exact (Hnone "InMemoryCache" Hord).
Defined.

(** Asked for ["constructor"], the loader hands back an empty object. *)
Lemma createCachePlugin_inherited_names_witness :
  Forall (λ Plugin, ordinary (CachePluginLoader.name Plugin))
    (CachePluginLoader.registrable plugin_directory)
  ∧ CachePluginLoader.createCachePlugin plugin_directory "constructor"
    = Normal (Some CachePluginLoader.EmptyObject)
  ∧ CachePluginLoader.createCachePlugin plugin_directory "toString"
    = Throw CachePluginLoader.not_a_constructor.
Proof.
  assert (Forall (λ Plugin, ordinary (CachePluginLoader.name Plugin))
            (CachePluginLoader.registrable plugin_directory)) as Hnames
    by constructor.
  split; [exact Hnames|].
  destruct (createCachePlugin_inherited_names plugin_directory Hnames)
    as [Hctor Hother].
  split; [exact Hctor|]. apply Hother; [by_decision | discriminate].
Defined.

(** A provider mounted over a cache holding ["users"] publishes the cached
    value and still calls [fetchFn]. *)
Lemma fetchData_cache_hit_witness :
  ordinary "users"
  ∧ cache_get users_cached "users" ≠ JUndefined
  ∧ lookup_record (cache_read "users" 1 (mount (Some users_cached))) "users"
    = Some {| status := Success; data := Some (JStr "cached"); error := None;
              isFetching := false; refetch := ("users", 1) |}
  ∧ calls (fetchData "users" 1 (mount (Some users_cached))) = [("users", 1)].
Proof.
  assert (ordinary "users") as Hord by by_decision.
  assert (cache_get users_cached "users" ≠ JUndefined) as Hdef by discriminate.
  split; [exact Hord|]. split; [exact Hdef|].
  destruct (fetchData_cache_hit (mount (Some users_cached)) "users" 1 users_cached
              Hord eq_refl eq_refl Hdef) as (Hpub & _ & Hcalls & _).
  split; [exact Hpub | exact Hcalls].
Defined.

(** A key the run never fetched reads as the default record. *)
Lemma useQuery_default_state_witness :
  ordinary "posts"
  ∧ Forall ordinary_event
      [Invoke "users" 1; Commit; Settle 0 (Resolved (JStr "alice")); Commit]
  ∧ Forall (not_invoke "posts")
      [Invoke "users" 1; Commit; Settle 0 (Resolved (JStr "alice")); Commit]
  ∧ useQuery (Some (commit users_loaded)) "posts" 3
    = Normal (Returned {| status := Idle; data := None; error := None;
                          isFetching := false; refetch := ("posts", 3) |}, true).
Proof.
  assert (ordinary "posts") as Hord by by_decision.
  assert (Forall ordinary_event
            [Invoke "users" 1; Commit; Settle 0 (Resolved (JStr "alice")); Commit])
    as Hord_evs by ordinary_events.
  assert (Forall (not_invoke "posts")
            [Invoke "users" 1; Commit; Settle 0 (Resolved (JStr "alice")); Commit])
    as Hevs by (repeat constructor; discriminate).
  split; [exact Hord|]. split; [exact Hord_evs|]. split; [exact Hevs|].
  exact (useQuery_default_state None _ "posts" 3 Hord Hord_evs Hevs).
Defined.
